(** * faro.Database: a shallow embedding of [src/faro/database.py]

    The development follows the layers of the Python module:

    - [PyStr]: the [str] methods the module calls ([replace], [split], [join]);
    - [escape_sqlite_ident]: the identifier sanitizer (database.py:335-336);
    - [Sqlite]: the part of the embedded engine the module talks to, as a
      tokenizer, a parser for the statement shapes the module issues, and an
      evaluator over a catalog of relations (a table name is resolved as
      SQLite does, without regard to the case of ASCII letters, and the
      argument of the table-valued pragma is read as SQLite reads a
      double-quoted word);
    - [Py], [Callable]: values, exceptions, and the calling convention of the
      user functions the row mapping calls;
    - [Pandas], [OsPath]: the data frame and path operations the module
      relies on;
    - the [Database] methods themselves, in a state-and-exception monad over
      the object, the files and a log of the engine and function calls.  *)

From Stdlib Require Import ZArith Ascii String.
From stdpp Require Import base option list strings gmap.

Local Open Scope Z_scope.
Local Open Scope stdpp_scope.

(** ** Python [str] methods *)

Module PyStr.

(** [s.replace(old, new)] for a one-character [old]. *)
Fixpoint replace (old : ascii) (new : string) (s : string) : string :=
  match s with
  | EmptyString => EmptyString
  | String c s' =>
      if Ascii.eqb c old then new +:+ replace old new s'
      else String c (replace old new s')
  end.

(** [s.split(sep)] for a one-character [sep]: one more piece than there are
    separators, empty pieces kept. *)
Fixpoint split (sep : ascii) (s : string) : list string :=
  match s with
  | EmptyString => [EmptyString]
  | String c s' =>
      if Ascii.eqb c sep then EmptyString :: split sep s'
      else match split sep s' with
           | [] => [String c EmptyString]
           | p :: ps => String c p :: ps
           end
  end.

(** [sep.join(l)]. *)
Fixpoint join (sep : string) (l : list string) : string :=
  match l with
  | [] => EmptyString
  | [x] => x
  | x :: l' => x +:+ sep +:+ join sep l'
  end.

(** [c in s] for a one-character [c]. *)
Fixpoint contains (c : ascii) (s : string) : bool :=
  match s with
  | EmptyString => false
  | String d s' => Ascii.eqb d c || contains c s'
  end.

End PyStr.

(** The characters the module's SQL text is built from. *)
Definition dquote : ascii := "034"%char.
Definition newline : ascii := "010"%char.
Definition semicolon : ascii := ";"%char.

Abbreviation str1 c := (String c EmptyString) (only parsing).

(** database.py:335-336
<<
def escape_sqlite_ident(ident):
    return QUOTE + ident.replace(QUOTE, QUOTE QUOTE) + QUOTE
>>
    where QUOTE is the one-character string holding a double quote. *)
Definition escape_sqlite_ident (ident : string) : string :=
  str1 dquote +:+ PyStr.replace dquote (String dquote (str1 dquote)) ident +:+ str1 dquote.

(** ** Python values and exceptions *)

Module Py.

(** The scalars a cell of a relation holds. Integers are not bounded here and
    there are no floating point cells: the 64-bit range of the engine and the
    dtype inference of the data-frame library (which turns an integer column
    with a NULL into floats) are outside the model. The properties that depend
    on what the user function is handed or on what is stored are stated for
    relations of 64-bit integers ([integer_cells] below), where a value read
    from the engine reaches the function and is written back as it is. *)
Inductive value : Type :=
  | VNone
  | VInt (z : Z)
  | VText (s : string).

#[global] Instance value_eq_dec : EqDecision value.
Proof. solve_decision. Defined.

(** The exception classes that reach a caller of the module. *)
Inductive exn : Type :=
  | ValueError (msg : string)
  | TypeError (msg : string)
  | KeyError (key : string)
  | FileNotFoundError (file : string)
  | OperationalError (msg : string).   (* sqlite3.OperationalError *)

Inductive pyresult (A : Type) : Type :=
  | Ok (a : A)
  | Raise (e : exn).
Arguments Ok {A} a.
Arguments Raise {A} e.


(** A [dict] with [str] keys: insertion-ordered, one entry per key. *)
Definition dict : Type := list (string * value).

Fixpoint dict_set (k : string) (v : value) (d : dict) : dict :=
  match d with
  | [] => [(k, v)]
  | (k', v') :: d' =>
      if String.eqb k' k then (k', v) :: d' else (k', v') :: dict_set k v d'
  end.

Fixpoint dict_get (k : string) (d : dict) : option value :=
  match d with
  | [] => None
  | (k', v) :: d' => if String.eqb k' k then Some v else dict_get k d'
  end.

(** [dict(pairs)]: later pairs overwrite earlier ones, keeping the position of
    the first. *)
Definition dict_of_pairs (kvs : list (string * value)) : dict :=
  foldl (fun d kv => dict_set kv.1 kv.2 d) [] kvs.

End Py.
Export Py.

(** ** The embedded engine *)

Module Sqlite.

(** *** Tokenizer

    The character classes of SQLite's tokenizer: blanks; identifier characters
    (letters, digits, underscore, dollar, and every byte from 128 up); an
    identifier starts with a letter, an underscore or a byte from 128 up. *)
Definition code (c : ascii) : nat := nat_of_ascii c.

Definition is_space (c : ascii) : bool :=
  let n := code c in
  (n =? 32)%nat || (n =? 9)%nat || (n =? 10)%nat || (n =? 12)%nat || (n =? 13)%nat.

Definition is_digit (c : ascii) : bool :=
  let n := code c in (48 <=? n)%nat && (n <=? 57)%nat.

Definition is_upper (c : ascii) : bool :=
  let n := code c in (65 <=? n)%nat && (n <=? 90)%nat.

Definition is_lower (c : ascii) : bool :=
  let n := code c in (97 <=? n)%nat && (n <=? 122)%nat.

Definition is_id_start (c : ascii) : bool :=
  is_upper c || is_lower c || (code c =? 95)%nat || (128 <=? code c)%nat.

Definition is_id_char (c : ascii) : bool :=
  is_id_start c || is_digit c || (code c =? 36)%nat.

Inductive token : Type :=
  | TStar | TComma | TLParen | TRParen | TSemi
  | TWord (w : string)      (* a bare word: keyword or identifier *)
  | TQuoted (s : string)    (* a double-quoted identifier, unescaped *)
  | TNumber
  | TIllegal.

Inductive lstate : Type :=
  | LStart
  | LWord (acc : string)
  | LNum
  | LQuoted (acc : string)   (* inside a quoted identifier *)
  | LQuote2 (acc : string).  (* just read a quote inside a quoted identifier *)

(** What the tokenizer does with a character read between tokens. *)
Definition start (c : ascii) : list token * lstate :=
  if is_space c then ([], LStart)
  else if Ascii.eqb c dquote then ([], LQuoted EmptyString)
  else if Ascii.eqb c "*" then ([TStar], LStart)
  else if Ascii.eqb c "," then ([TComma], LStart)
  else if Ascii.eqb c "(" then ([TLParen], LStart)
  else if Ascii.eqb c ")" then ([TRParen], LStart)
  else if Ascii.eqb c semicolon then ([TSemi], LStart)
  else if is_id_start c then ([], LWord (str1 c))
  else if is_digit c then ([], LNum)
  else ([TIllegal], LStart).

Fixpoint lex_go (st : lstate) (s : string) : list token :=
  match s with
  | EmptyString =>
      match st with
      | LStart => []
      | LWord w => [TWord w]
      | LNum => [TNumber]
      | LQuoted _ => [TIllegal]       (* unterminated quoted identifier *)
      | LQuote2 acc => [TQuoted acc]
      end
  | String c s' =>
      let restart (emitted : list token) :=
        let '(ts, st') := start c in emitted ++ ts ++ lex_go st' s' in
      match st with
      | LStart => restart []
      | LWord w =>
          if is_id_char c then lex_go (LWord (w +:+ str1 c)) s'
          else restart [TWord w]
      | LNum =>
          if is_id_char c then lex_go LNum s' else restart [TNumber]
      | LQuoted acc =>
          if Ascii.eqb c dquote then lex_go (LQuote2 acc) s'
          else lex_go (LQuoted (acc +:+ str1 c)) s'
      | LQuote2 acc =>
          if Ascii.eqb c dquote then lex_go (LQuoted (acc +:+ str1 dquote)) s'
          else restart [TQuoted acc]
      end
  end.

Definition lex (sql : string) : list token := lex_go LStart sql.

(** *** Parser

    Keywords are recognised without regard to case. A bare word that is one of
    SQLite's keywords is not taken as an identifier. *)
Definition lower_ascii (c : ascii) : ascii :=
  if is_upper c then ascii_of_nat (code c + 32) else c.

Fixpoint lower (s : string) : string :=
  match s with
  | EmptyString => EmptyString
  | String c s' => String (lower_ascii c) (lower s')
  end.

Definition keywords : list string :=
  [ "abort"; "action"; "add"; "after"; "all"; "alter"; "always"; "analyze";
    "and"; "as"; "asc"; "attach"; "autoincrement"; "before"; "begin";
    "between"; "by"; "cascade"; "case"; "cast"; "check"; "collate"; "column";
    "commit"; "conflict"; "constraint"; "create"; "cross"; "current";
    "current_date"; "current_time"; "current_timestamp"; "database";
    "default"; "deferrable"; "deferred"; "delete"; "desc"; "detach";
    "distinct"; "do"; "drop"; "each"; "else"; "end"; "escape"; "except";
    "exclude"; "exclusive"; "exists"; "explain"; "fail"; "filter"; "first";
    "following"; "for"; "foreign"; "from"; "full"; "generated"; "glob";
    "group"; "groups"; "having"; "if"; "ignore"; "immediate"; "in"; "index";
    "indexed"; "initially"; "inner"; "insert"; "instead"; "intersect"; "into";
    "is"; "isnull"; "join"; "key"; "last"; "left"; "like"; "limit"; "match";
    "materialized"; "natural"; "no"; "not"; "nothing"; "notnull"; "null";
    "nulls"; "of"; "offset"; "on"; "or"; "order"; "others"; "outer"; "over";
    "partition"; "plan"; "pragma"; "preceding"; "primary"; "query"; "raise";
    "range"; "recursive"; "references"; "regexp"; "reindex"; "release";
    "rename"; "replace"; "restrict"; "returning"; "right"; "rollback"; "row";
    "rows"; "savepoint"; "select"; "set"; "table"; "temp"; "temporary";
    "then"; "ties"; "to"; "transaction"; "trigger"; "unbounded"; "union";
    "unique"; "update"; "using"; "vacuum"; "values"; "view"; "virtual";
    "when"; "where"; "window"; "with"; "without" ].

Definition is_keyword (w : string) : bool :=
  existsb (String.eqb (lower w)) keywords.

Definition is_kw (k w : string) : bool := String.eqb (lower w) k.

(** The name a token denotes where an identifier is expected. *)
Definition ident_of (t : token) : option string :=
  match t with
  | TQuoted s => Some s
  | TWord w => if is_keyword w then None else Some w
  | _ => None
  end.

(** The statements of the model: the three shapes [Database] issues. The
    table-valued pragma comes in two forms, by what its double-quoted argument
    denotes: the name of a table, or one of the pragma's own columns. *)
Inductive stmt : Type :=
  | SelectAll (table : string)
  | SelectCols (cols : list string) (table : string)
  | SelectTableInfo (table : string)
  | SelectTableInfoSelf (column : string).

(** A comma-separated list of identifiers, and the tokens after it. *)
Fixpoint parse_cols (ts : list token) : option (list string * list token) :=
  match ts with
  | [] => None
  | t :: rest =>
      match ident_of t with
      | None => None
      | Some c =>
          match rest with
          | TComma :: rest' =>
              match parse_cols rest' with
              | Some (cs, tl) => Some (c :: cs, tl)
              | None => None
              end
          | _ => Some ([c], rest)
          end
      end
  end.

(** A statement ends at the end of the text or at one closing separator. *)
Definition at_end (ts : list token) : bool :=
  match ts with
  | [] | [TSemi] => true
  | _ => false
  end.

(** The names that denote a column inside [pragma_table_info]: its columns,
    the two hidden ones included, and the names every table has for its row
    id. They are matched without regard to case. *)
Definition pragma_columns : list string :=
  ["cid"; "name"; "type"; "notnull"; "dflt_value"; "pk"; "arg"; "schema";
   "rowid"; "oid"; "_rowid_"].

Definition pragma_column (s : string) : bool :=
  existsb (String.eqb (lower s)) pragma_columns.

Definition parse_from (cols : option (list string)) (ts : list token) : option stmt :=
  match ts with
  | TWord f :: TWord fn :: TLParen :: TQuoted arg :: TRParen :: tl =>
      (* a double-quoted word is an identifier first: where it names a column
         in scope, here a column of the pragma itself, it denotes that column;
         only otherwise is it read as a string literal, the name of a table *)
      if is_kw "from" f && is_kw "pragma_table_info" fn && at_end tl then
        match cols with
        | Some [c] =>
            if String.eqb (lower c) "name" then
              if pragma_column arg then Some (SelectTableInfoSelf arg)
              else Some (SelectTableInfo arg)
            else None
        | _ => None
        end
      else None
  | TWord f :: t :: tl =>
      if is_kw "from" f && at_end tl then
        match ident_of t, cols with
        | Some tb, None => Some (SelectAll tb)
        | Some tb, Some cs => Some (SelectCols cs tb)
        | None, _ => None
        end
      else None
  | _ => None
  end.

(** Separators ahead of a statement are skipped. *)
Fixpoint skip_separators (ts : list token) : list token :=
  match ts with
  | TSemi :: ts' => skip_separators ts'
  | _ => ts
  end.

Definition parse (ts : list token) : option stmt :=
  match skip_separators ts with
  | TWord s :: TStar :: rest =>
      if is_kw "select" s then parse_from None rest else None
  | TWord s :: rest =>
      if is_kw "select" s then
        match parse_cols rest with
        | Some (cols, rest') => parse_from (Some cols) rest'
        | None => None
        end
      else None
  | _ => None
  end.

(** *** Catalog and evaluation *)

Record relation : Type := { columns : list string; rows : list (list value) }.

(** What a cursor holds after [execute]: [description] (column names) and the
    rows [fetchall] returns. *)
Record result_set : Type := { description : list string; fetchall : list (list value) }.

Fixpoint index_of (c : string) (cols : list string) : option nat :=
  match cols with
  | [] => None
  | c' :: cols' => if String.eqb c' c then Some 0%nat else S <$> index_of c cols'
  end.

Definition cell (row : list value) (i : nat) : value := default VNone (row !! i).

Fixpoint indices (cols_wanted cols : list string) : pyresult (list nat) :=
  match cols_wanted with
  | [] => Ok []
  | c :: cs =>
      match index_of c cols with
      | None => Raise (OperationalError ("no such column: " +:+ c))
      | Some i =>
          match indices cs cols with
          | Ok ixs => Ok (i :: ixs)
          | Raise e => Raise e
          end
      end
  end.

(** Two names the engine takes for the same: equal up to the case of ASCII
    letters. *)
Definition same_name (a b : string) : bool := String.eqb (lower a) (lower b).

(** The relation a table name denotes. The engine compares names without
    regard to case and keeps no two names that are the same in this sense, so
    a name denotes at most one relation; the name as written is tried first.
    (The engine's own schema tables and built-in table-valued functions are
    not relations of the catalog and are not modelled.) *)
Definition resolve (cat : gmap string relation) (t : string) : option relation :=
  match cat !! t with
  | Some r => Some r
  | None => snd <$> List.find (fun kv => same_name kv.1 t) (map_to_list cat)
  end.

Definition run (cat : gmap string relation) (s : stmt) : pyresult result_set :=
  match s with
  | SelectAll t =>
      match resolve cat t with
      | Some r => Ok {| description := columns r; fetchall := rows r |}
      | None => Raise (OperationalError ("no such table: " +:+ t))
      end
  | SelectCols cols t =>
      match resolve cat t with
      | Some r =>
          match indices cols (columns r) with
          | Ok ixs =>
              Ok {| description := cols;
                    fetchall := (fun row => cell row <$> ixs) <$> rows r |}
          | Raise e => Raise e
          end
      | None => Raise (OperationalError ("no such table: " +:+ t))
      end
  | SelectTableInfo t =>
      (* the table-valued pragma yields no row for a name the catalog lacks *)
      Ok {| description := ["name"];
            fetchall := match resolve cat t with
                        | Some r => (fun c => [VText c]) <$> columns r
                        | None => []
                        end |}
  | SelectTableInfoSelf _ =>
      (* the argument is a column of the pragma, not a constant: the pragma
         is read without a table name and yields no row *)
      Ok {| description := ["name"]; fetchall := [] |}
  end.

(** [cursor.execute(sql)] on a read statement of the three shapes. Any other
    text, a statement that writes included, is outside the modelled fragment
    and is reported here as an error; the properties of [query] that say what
    a statement returns are stated for the statements [parse] reads. *)
Definition execute (cat : gmap string relation) (sql : string) : pyresult result_set :=
  match parse (lex sql) with
  | Some s => run cat s
  | None => Raise (OperationalError "syntax error")
  end.

End Sqlite.

(** ** User functions and the calling convention *)

Module Callable.

Record param : Type := { pname : string; pdefault : option value }.

(** The parameters of [def f(posonly, /, params, *vararg, kwonly, **varkw)]. *)
Record signature : Type := {
  posonly : list param;
  params : list param;
  vararg : option string;
  kwonly : list param;
  varkw : option string }.

(** A function object: its signature, the local variables that are not
    parameters, and its body, run on the bound parameters, the surplus
    positional arguments and the surplus keyword arguments. *)
Record function : Type := {
  sig : signature;
  co_locals : list string;
  body : dict -> list value -> dict -> pyresult value }.

Definition positional (sg : signature) : list param := posonly sg ++ params sg.

(** [f.__code__.co_argcount]: the positional parameters, positional-only ones
    and those with a default included; [*vararg], keyword-only parameters and
    [**varkw] are not counted. *)
Definition co_argcount (f : function) : nat := length (positional (sig f)).

(** [f.__code__.co_varnames]: positional parameters, keyword-only parameters,
    [*vararg], [**varkw], then the other locals. *)
Definition co_varnames (f : function) : list string :=
  (pname <$> positional (sig f)) ++ (pname <$> kwonly (sig f)) ++
  option_list (vararg (sig f)) ++ option_list (varkw (sig f)) ++ co_locals f.

Fixpoint bind_positional (ps : list param) (args : list value) : dict * list value :=
  match ps, args with
  | p :: ps', a :: args' =>
      let '(d, surplus) := bind_positional ps' args' in ((pname p, a) :: d, surplus)
  | _, _ => ([], args)
  end.

Definition accepts_keyword (sg : signature) (k : string) : bool :=
  existsb (fun p => String.eqb (pname p) k) (params sg ++ kwonly sg).

Fixpoint bind_keywords (sg : signature) (bound surplus : dict) (kwargs : dict)
  : pyresult (dict * dict) :=
  match kwargs with
  | [] => Ok (bound, surplus)
  | (k, v) :: kwargs' =>
      if accepts_keyword sg k then
        match dict_get k bound with
        | Some _ => Raise (TypeError ("got multiple values for argument " +:+ k))
        | None => bind_keywords sg (bound ++ [(k, v)]) surplus kwargs'
        end
      else
        match varkw sg with
        | Some _ => bind_keywords sg bound (surplus ++ [(k, v)]) kwargs'
        | None => Raise (TypeError ("got an unexpected keyword argument " +:+ k))
        end
  end.

Fixpoint fill_defaults (ps : list param) (bound : dict) : pyresult dict :=
  match ps with
  | [] => Ok []
  | p :: ps' =>
      let v := match dict_get (pname p) bound with
               | Some v => Some v
               | None => pdefault p
               end in
      match v with
      | None => Raise (TypeError ("missing required argument " +:+ pname p))
      | Some v =>
          match fill_defaults ps' bound with
          | Ok d => Ok ((pname p, v) :: d)
          | Raise e => Raise e
          end
      end
  end.

(** A call of [f] with positional arguments [args] and keyword arguments
    [kwargs]. *)
Definition call (f : function) (args : list value) (kwargs : dict) : pyresult value :=
  let sg := sig f in
  let '(bound, star) := bind_positional (positional sg) args in
  match star, vararg sg with
  | _ :: _, None => Raise (TypeError "too many positional arguments")
  | _, _ =>
      match bind_keywords sg bound [] kwargs with
      | Raise e => Raise e
      | Ok (bound', surplus) =>
          match fill_defaults (positional sg ++ kwonly sg) bound' with
          | Raise e => Raise e
          | Ok env => body f env star surplus
          end
      end
  end.

End Callable.
Export Callable.

(** ** Data frames *)

Module Pandas.
Import Sqlite.

(** A frame: column labels and rows of cells, one cell per label. *)
Record DataFrame : Type := { df_columns : list string; df_values : list (list value) }.

Fixpoint positions (labels cols : list string) : pyresult (list nat) :=
  match labels with
  | [] => Ok []
  | c :: cs =>
      match index_of c cols with
      | None => Raise (KeyError c)
      | Some i =>
          match positions cs cols with
          | Ok ixs => Ok (i :: ixs)
          | Raise e => Raise e
          end
      end
  end.

(** [df[labels]] for a list of labels: the named columns in the order asked
    for. ([.values] of the result is an array of one dtype: its cells reach
    the caller as scalars of that dtype, fixed-width integers for an integer
    frame; the model hands the cells over as they are.) *)
Definition getitem (df : DataFrame) (labels : list string) : pyresult DataFrame :=
  match positions labels (df_columns df) with
  | Ok ixs =>
      Ok {| df_columns := labels;
            df_values := (fun row => cell row <$> ixs) <$> df_values df |}
  | Raise e => Raise e
  end.

(** [df.to_dict(orient='records')]: one dict per row, label to cell. *)
Definition to_dict_records (df : DataFrame) : list dict :=
  (fun row => dict_of_pairs (zip (df_columns df) row)) <$> df_values df.

(** [df[label] = vals]: an existing column is overwritten in place, a new one is
    attached after the last; the lengths have to agree. *)
Definition setitem (df : DataFrame) (label : string) (vals : list value)
  : pyresult DataFrame :=
  if (length vals =? length (df_values df))%nat then
    match index_of label (df_columns df) with
    | Some i =>
        Ok {| df_columns := df_columns df;
              df_values := zip_with (fun row v => <[i := v]> row) (df_values df) vals |}
    | None =>
        Ok {| df_columns := df_columns df ++ [label];
              df_values := zip_with (fun row v => row ++ [v]) (df_values df) vals |}
    end
  else Raise (ValueError "Length of values does not match length of index").

(** [CREATE TABLE name (labels)] followed by the insertion of the rows. The
    checks modelled are those on the labels as written (at least one, no
    duplicate); names the engine reserves, labels equal up to case, and cells
    the engine converts or cannot store are not modelled. *)
Definition create_table (name : string) (df : DataFrame) (cat : gmap string relation)
  : pyresult (gmap string relation) :=
  if bool_decide (df_columns df = []) then Raise (OperationalError "syntax error")
  else if bool_decide (NoDup (df_columns df)) then
    Ok (<[name := {| columns := df_columns df; rows := df_values df |}]> cat)
  else Raise (OperationalError "duplicate column name").

(** The row [INSERT INTO name (labels) VALUES (cells)] adds to a relation with
    columns [cols]: a column the frame lacks is left NULL. *)
Definition inserted_row (labels cols : list string) (row : list value) : list value :=
  (fun c => match index_of c labels with
            | Some i => cell row i
            | None => VNone
            end) <$> cols.

Definition insert_rows (name : string) (df : DataFrame) (r : relation)
  (cat : gmap string relation) : pyresult (gmap string relation) :=
  match positions (df_columns df) (columns r) with
  | Raise _ => Raise (OperationalError ("table " +:+ name +:+ " has no such column"))
  | Ok _ =>
      Ok (<[name := {| columns := columns r;
                       rows := rows r ++
                         (inserted_row (df_columns df) (columns r) <$> df_values df) |}]> cat)
  end.

(** [df.to_sql(name, conn, if_exists=if_exists, index=False)], as one step:
    either the write takes place as a whole or the catalog is as before. (The
    library drops, creates and inserts in separate steps; a write that fails
    half-way is outside the model.) *)
Definition to_sql (df : DataFrame) (name : string) (cat : gmap string relation)
  (if_exists : string) : pyresult (gmap string relation) :=
  if String.eqb if_exists "fail" then
    match cat !! name with
    | Some _ => Raise (ValueError ("Table '" +:+ name +:+ "' already exists."))
    | None => create_table name df cat
    end
  else if String.eqb if_exists "replace" then
    create_table name df (delete name cat)
  else if String.eqb if_exists "append" then
    match cat !! name with
    | Some r => insert_rows name df r cat
    | None => create_table name df cat
    end
  else Raise (ValueError ("'" +:+ if_exists +:+ "' is not valid for if_exists")).

End Pandas.
Export Pandas.

(** Modelled from the spec: the table container [faro.Table] (faro/table.py is
    not part of the sources at hand). The spec describes it as an immutable
    row and column data carrier with a conversion to and from the generic
    tabular form; [Table(rows, header=False, columns=cols)] carries [rows]
    under the labels [cols], and [to_dataframe] hands the same labels and rows
    over as a frame. The type inference and NULL coercion the conversion is
    said to perform, and what the container does with a result of no rows,
    are not modelled: the properties that depend on the cells handed over are
    stated for relations of 64-bit integers with at least one row. *)
Record Table : Type := { t_rows : list (list value); t_columns : list string }.

Definition to_dataframe (t : Table) : DataFrame :=
  {| df_columns := t_columns t; df_values := t_rows t |}.

(** ** [os.path] *)

Module OsPath.

Fixpoint rfind_go (c : ascii) (s : string) (i best : Z) : Z :=
  match s with
  | EmptyString => best
  | String d s' => rfind_go c s' (i + 1) (if Ascii.eqb d c then i else best)
  end.

(** [s.rfind(c)]: the last index of [c], or -1. *)
Definition rfind (c : ascii) (s : string) : Z := rfind_go c s 0 (-1).

(** [s[i:j]] for indices within the string. *)
Definition slice (s : string) (i j : Z) : string :=
  String.substring (Z.to_nat i) (Z.to_nat (j - i)) s.

Fixpoint all_dots (s : string) : bool :=
  match s with
  | EmptyString => true
  | String c s' => Ascii.eqb c "." && all_dots s'
  end.

(** The extension [os.path.splitext(p)[1]] on a POSIX system: from the last dot
    of the last path component on, unless only dots come before it there. *)
Definition splitext_ext (p : string) : string :=
  let sepIndex := rfind "/" p in
  let dotIndex := rfind "." p in
  if (sepIndex <? dotIndex) && negb (all_dots (slice p (sepIndex + 1) dotIndex))
  then slice p dotIndex (Z.of_nat (String.length p))
  else EmptyString.

End OsPath.

(** ** The database object and its world *)

Import Sqlite.

(** The fields [__init__] sets (database.py:13-17). [_conn] is the catalog of
    the in-memory engine behind the connection; the cursor is not kept as a
    field: [execute], [fetchall] and [description] are one step that returns
    the result set. *)
Record Database : Type := {
  _conn : gmap string relation;
  _name : string;
  _tables : list string }.

Definition new (name : string) : Database :=
  {| _conn := ∅; _name := name; _tables := [] |}.

(** What a method does that a caller can observe besides its result: the
    statements sent to the cursor, the writes handed to the engine through
    [to_sql], and the calls of the user function. *)
Inductive event : Type :=
  | EvExecute (sql : string)
  | EvToSql (name if_exists : string)
  | EvCall (args : list value) (kwargs : dict).

(** The world a method runs in: the object, the files on disk (a path that
    exists is mapped to what the reader chosen for its extension returns), and
    the events so far, oldest first. *)
Record World : Type := {
  self : Database;
  files : gmap string (pyresult DataFrame);
  events : list event }.

(** Methods are state transformers that return or raise; an exception keeps
    the state reached when it was raised. *)
Definition M (A : Type) : Type := World -> pyresult A * World.

Definition ret {A} (a : A) : M A := fun w => (Ok a, w).

Definition bind {A B} (m : M A) (k : A -> M B) : M B :=
  fun w => match m w with
           | (Ok a, w') => k a w'
           | (Raise e, w') => (Raise e, w')
           end.

Definition raise {A} (e : exn) : M A := fun w => (Raise e, w).

Definition lift {A} (r : pyresult A) : M A := fun w => (r, w).

Definition emit (e : event) : M unit :=
  fun w => (Ok tt, {| self := self w; files := files w; events := events w ++ [e] |}).

Definition get_self : M Database := fun w => (Ok (self w), w).

Definition put_self (d : Database) : M unit :=
  fun w => (Ok tt, {| self := d; files := files w; events := events w |}).

#[global] Instance M_ret : MRet M := @ret.
#[global] Instance M_bind : MBind M := fun A B k m => bind m k.

(** A list comprehension whose element expression runs in [M]. *)
Fixpoint comprehension {A B} (f : A -> M B) (l : list A) : M (list B) :=
  match l with
  | [] => ret []
  | x :: l' => y ← f x; ys ← comprehension f l'; ret (y :: ys)
  end.

Fixpoint spaces (n : nat) : string :=
  match n with
  | O => EmptyString
  | S n' => String " " (spaces n')
  end.

(** [self._cursor.execute(sql)] followed by reading the cursor. *)
Definition cursor_execute (sql : string) : M result_set :=
  _ ← emit (EvExecute sql);
  d ← get_self;
  lift (Sqlite.execute (_conn d) sql).

(** A call of the user function. *)
Definition invoke (func : function) (args : list value) (kwargs : dict) : M value :=
  _ ← emit (EvCall args kwargs);
  lift (call func args kwargs).

(** *** Error messages (the text of the exceptions the module raises) *)

Definition msg_valid_options : string :=
  "Valid options: {" +:+ str1 dquote +:+ "fail" +:+ str1 dquote +:+ ", " +:+
  str1 dquote +:+ "replace" +:+ str1 dquote +:+ ", " +:+
  str1 dquote +:+ "append" +:+ str1 dquote +:+ "}".

Definition msg_table_exists (name : string) : string :=
  "Table: " +:+ name +:+ " already exists in database.".

Definition msg_extension (file_ext : string) : string :=
  "Extension: " +:+ file_ext +:+ " not supported!" +:+ str1 newline +:+ spaces 12 +:+
  "Supported extensions: dict_keys(['.csv', '.json', '.xlsx'])" +:+
  str1 newline +:+ spaces 12.

Definition msg_table_type : string :=
  "Invalid table type." +:+ str1 newline +:+ spaces 12 +:+
  "Valid types include:" +:+ str1 newline +:+ spaces 16 +:+
  "- str (file name)" +:+ str1 newline +:+ spaces 16 +:+
  "- `faro.Table`" +:+ str1 newline +:+ spaces 16 +:+
  "- `pandas.DataFrame`" +:+ str1 newline +:+ spaces 12.

Definition msg_single_statement : string :=
  "Can only execute a single statement at once.".

Definition msg_column_exists (output : string) : string :=
  "Column already exists: " +:+ output +:+ "." +:+ str1 newline +:+ spaces 12 +:+
  "Set `overwrite = True` to overwrite all values in this column.".

Definition msg_unbound (arg table : string) : string :=
  "Argument " +:+ arg +:+ " is not a column of table " +:+ table +:+ ".".

(** *** Ingestion (database.py:27-122) *)

(** What [add_table] is handed as [table]. *)
Inductive source : Type :=
  | SrcPath (file : string)
  | SrcTable (t : Table)
  | SrcDataFrame (df : DataFrame)
  | SrcOther.

(** database.py:121-122 *)
Definition _parse_dataframe (df : DataFrame) (name if_exists : string) : M unit :=
  _ ← emit (EvToSql name if_exists);
  d ← get_self;
  cat ← lift (to_sql df name (_conn d) if_exists);
  put_self {| _conn := cat; _name := _name d; _tables := _tables d |}.

(** database.py:118-119 *)
Definition _parse_faro_table (table : Table) (name if_exists : string) : M unit :=
  _parse_dataframe (to_dataframe table) name if_exists.

(** database.py:94-116. The format options passed on to the reader are part of
    what [files] records for the path. *)
Definition _parse_file (file name if_exists : string) : M unit :=
  fun w =>
    match files w !! file with
    | None => (Raise (FileNotFoundError file), w)
    | Some content =>
        let file_ext := OsPath.splitext_ext file in
        if bool_decide (file_ext ∈ [".csv"; ".json"; ".xlsx"]) then
          (df ← lift content; _parse_dataframe df name if_exists) w
        else (Raise (TypeError (msg_extension file_ext)), w)
    end.

(** database.py:69-92 *)
Definition add_table (table : source) (name : string) (if_exists : string) : M unit :=
  if negb (bool_decide (if_exists ∈ ["fail"; "replace"; "append"])) then
    raise (ValueError msg_valid_options)
  else
    d ← get_self;
    if bool_decide (name ∈ _tables d) && String.eqb if_exists "fail" then
      raise (ValueError (msg_table_exists name))
    else
      _ ← match table with
          | SrcPath file => _parse_file file name if_exists
          | SrcTable t => _parse_faro_table t name if_exists
          | SrcDataFrame df => _parse_dataframe df name if_exists
          | SrcOther => raise (TypeError msg_table_type)
          end;
      d ← get_self;
      if bool_decide (name ∈ _tables d) then ret tt
      else put_self {| _conn := _conn d; _name := _name d; _tables := _tables d ++ [name] |}.

(** *** Queries (database.py:172-182, 316-319) *)

(** database.py:172-182 *)
Definition query (sql : string) : M Table :=
  let expressions :=
    filter (fun e => e ≠ EmptyString) (PyStr.split semicolon sql) in
  if (1 <? length expressions)%nat then raise (ValueError msg_single_statement)
  else
    rs ← cursor_execute sql;
    ret {| t_rows := fetchall rs; t_columns := description rs |}.

(** The first cell of a fetched row, [r[0]]. *)
Definition first_cell (r : list value) : value := cell r 0.

(** database.py:316-319 *)
Definition column_names (table : string) : M (list value) :=
  let sql := "select name from pragma_table_info(" +:+ escape_sqlite_ident table +:+ ")" in
  rs ← cursor_execute sql;
  ret (first_cell <$> fetchall rs).

(** *** Row mapping (database.py:184-314)

    The [isinstance] checks at the head of both methods hold by typing here:
    [func] is a function object, [table] and [output] are strings, and
    [columns] is already a list of strings. *)

(** database.py:287 *)
Definition arg_names (func : function) : list string :=
  take (co_argcount func) (co_varnames func).

(** database.py:289-292: the first parameter name that [col_names] lacks
    raises. *)
Fixpoint check_bound (table : string) (args : list string) (col_names : list value)
  : M unit :=
  match args with
  | [] => ret tt
  | arg :: args' =>
      if bool_decide (VText arg ∈ col_names) then check_bound table args' col_names
      else raise (ValueError (msg_unbound arg table))
  end.

(** database.py:281-314 *)
Definition map_into (func : function) (table output : string) (overwrite : bool)
  : M unit :=
  let arg_names := arg_names func in
  col_names ← column_names table;
  _ ← check_bound table arg_names col_names;
  let sql := "SELECT " +:+ PyStr.join ", " (escape_sqlite_ident <$> arg_names) +:+
             str1 newline +:+ spaces 18 +:+ "FROM " +:+ escape_sqlite_ident table in
  t ← query sql;
  let df := to_dataframe t in
  if bool_decide (VText output ∈ col_names) && negb overwrite then
    raise (ValueError (msg_column_exists output))
  else
    result ← comprehension (fun row => invoke func [] row) (to_dict_records df);
    t ← query ("select * from " +:+ escape_sqlite_ident table);
    df ← lift (setitem (to_dataframe t) output result);
    add_table (SrcDataFrame df) table "replace".

(** database.py:220-246 *)
Definition map (func : function) (table : string) (columns : list string)
  (output : string) (overwrite : bool) : M unit :=
  let sql := "SELECT * FROM " +:+ table in
  t ← query sql;
  let df := to_dataframe t in
  if bool_decide (output ∈ df_columns df) && Bool.eqb overwrite false then
    raise (ValueError (msg_column_exists output))
  else
    sub ← lift (getitem df columns);
    result ← comprehension (fun row => invoke func row []) (df_values sub);
    df ← lift (setitem df output result);
    add_table (SrcDataFrame df) table "replace".

(** ** Notions the properties are stated with *)

Definition final {A} (m : M A) (w : World) : World := (m w).2.
Definition outcome {A} (m : M A) (w : World) : pyresult A := (m w).1.

(** The text after a closing quote does not go on with a quote. *)
Definition no_quote_ahead (rest : string) : bool :=
  match rest with
  | EmptyString => true
  | String c _ => negb (Ascii.eqb c dquote)
  end.

(** The tokens of a comma-separated list of quoted identifiers. *)
Fixpoint sep_tokens (names : list string) : list token :=
  match names with
  | [] => []
  | [a] => [TQuoted a]
  | a :: names' => TQuoted a :: TComma :: sep_tokens names'
  end.

(** The columns of [table] in the catalog of [w]; none for a name the catalog
    lacks. *)
Definition schema (w : World) (table : string) : list string :=
  match _conn (self w) !! table with
  | Some r => columns r
  | None => []
  end.

(** The column names the read of the pragma yields for [table]
    (database.py:317): those of the relation the name resolves to, and none
    when the name is a column of the pragma itself. *)
Definition introspected (w : World) (table : string) : list string :=
  if pragma_column table then []
  else match resolve (_conn (self w)) table with
       | Some r => columns r
       | None => []
       end.



(** A 64-bit integer cell. *)
Definition int64 (v : value) : Prop :=
  match v with
  | VInt z => -2 ^ 63 ≤ z < 2 ^ 63
  | _ => False
  end.

(** A relation of 64-bit integers: every cell is one, none is NULL. *)
Definition integer_cells (r : relation) : Prop :=
  Forall (Forall int64) (rows r).


(** The cell of [row] under the column named [c] of a relation with columns
    [cols]. *)
Definition named_cell (cols : list string) (row : list value) (c : string) : value :=
  match index_of c cols with
  | Some i => cell row i
  | None => VNone
  end.

(** The keyword arguments that bind each name of [names] to the cell of [row]
    under the column of that name. *)
Definition kwargs_of (cols : list string) (names : list string) (row : list value) : dict :=
  (fun a => (a, named_cell cols row a)) <$> names.

(** The world after [evs] more events. *)
Definition logged (w : World) (evs : list event) : World :=
  {| self := self w; files := files w; events := events w ++ evs |}.

(** The statements the methods send. *)
Definition sql_table_info (table : string) : string :=
  "select name from pragma_table_info(" +:+ escape_sqlite_ident table +:+ ")".

Definition sql_select_args (names : list string) (table : string) : string :=
  "SELECT " +:+ PyStr.join ", " (escape_sqlite_ident <$> names) +:+
  str1 newline +:+ spaces 18 +:+ "FROM " +:+ escape_sqlite_ident table.

Definition sql_select_all (table : string) : string :=
  "select * from " +:+ escape_sqlite_ident table.

(** The non-empty pieces [query] counts (database.py:173). *)
Definition statements (sql : string) : list string :=
  filter (fun e => e ≠ EmptyString) (PyStr.split semicolon sql).

(** The quoted form in the words of the specification: the text between two
    double quotes, each double quote inside it written twice. *)
Fixpoint doubled (s : string) : string :=
  match s with
  | EmptyString => EmptyString
  | String c s' =>
      if Ascii.eqb c dquote then String dquote (String dquote (doubled s'))
      else String c (doubled s')
  end.

Definition quoted_form (s : string) : string :=
  String dquote (doubled s +:+ str1 dquote).

(** The first name of [args] that is no column of [cols], if any. *)
Fixpoint first_unbound (args cols : list string) : option string :=
  match args with
  | [] => None
  | a :: args' =>
      if bool_decide (a ∈ cols) then first_unbound args' cols else Some a
  end.

(** The position of column [c] among [cols] (0 when it is none of them). *)
Definition col_pos (cols : list string) (c : string) : nat :=
  default 0%nat (index_of c cols).


(** The relation [r] with the column [output] holding [vals]: overwritten in
    place when [r] has such a column, attached after the last one otherwise. *)
Definition with_column (r : relation) (output : string) (vals : list value) : relation :=
  match index_of output (columns r) with
  | Some i =>
      {| columns := columns r;
         rows := zip_with (fun row v => <[i := v]> row) (rows r) vals |}
  | None =>
      {| columns := columns r ++ [output];
         rows := zip_with (fun row v => row ++ [v]) (rows r) vals |}
  end.

(** The registry after [name] is registered (database.py:91-92). *)
Definition registered (name : string) (tables : list string) : list string :=
  if bool_decide (name ∈ tables) then tables else tables ++ [name].

(** Names the Python grammar admits for a parameter or a local: a letter, an
    underscore or a byte from 128 up, then the same or digits. *)
Fixpoint all_chars (p : ascii -> bool) (s : string) : bool :=
  match s with
  | EmptyString => true
  | String c s' => p c && all_chars p s'
  end.

Definition py_identifier (s : string) : bool :=
  match s with
  | EmptyString => false
  | String c s' =>
      (is_upper c || is_lower c || (code c =? 95)%nat || (128 <=? code c)%nat) &&
      all_chars (fun d => is_upper d || is_lower d || (code d =? 95)%nat ||
                          (128 <=? code d)%nat || is_digit d) s'
  end.

(** A function object the interpreter can build: the names of its code object
    are identifiers and pairwise distinct. *)
Definition well_formed (f : function) : Prop :=
  NoDup (co_varnames f) ∧ Forall (fun a => py_identifier a = true) (co_varnames f).


(** The statement [map] fetches with (database.py:231). *)
Definition sql_map_fetch (table : string) : string := "SELECT * FROM " +:+ table.

(** [func] called on each dict of keyword arguments in turn, up to the first
    call that raises: the values returned or the exception, and the dicts the
    function was called on. *)
Fixpoint call_each (func : function) (kws : list dict) : pyresult (list value) * list dict :=
  match kws with
  | [] => (Ok [], [])
  | kw :: kws' =>
      match call func [] kw with
      | Raise e => (Raise e, [kw])
      | Ok v =>
          let '(r, called) := call_each func kws' in
          (match r with
           | Ok vs => Ok (v :: vs)
           | Raise e => Raise e
           end, kw :: called)
      end
  end.

(** [func] called on each row of positional arguments in turn, likewise. *)
Fixpoint call_each_pos (func : function) (argss : list (list value))
  : pyresult (list value) * list (list value) :=
  match argss with
  | [] => (Ok [], [])
  | args :: argss' =>
      match call func args [] with
      | Raise e => (Raise e, [args])
      | Ok v =>
          let '(r, called) := call_each_pos func argss' in
          (match r with
           | Ok vs => Ok (v :: vs)
           | Raise e => Raise e
           end, args :: called)
      end
  end.



(** A table name the engine reads as itself when it stands bare in a
    statement: a word of identifier characters that is no keyword. *)
Definition bare_identifier (s : string) : bool :=
  match s with
  | EmptyString => false
  | String c s' => is_id_start c && all_chars is_id_char s'
  end && negb (is_keyword s).

(** A relation as the engine keeps it: at least one column, distinct column
    names, one cell per column in every row. *)
Definition well_shaped (r : relation) : Prop :=
  columns r ≠ [] ∧ NoDup (columns r) ∧
  Forall (fun row => length row = length (columns r)) (rows r).

(** The columns of [r'] other than [output] are those of [r], in the same
    order and with the same cells, row by row. *)
Definition same_other_columns (output : string) (r r' : relation) : Prop :=
  filter (fun c => c ≠ output) (columns r') = filter (fun c => c ≠ output) (columns r) ∧
  length (rows r') = length (rows r) ∧
  ∀ c k row row',
    c ≠ output → c ∈ columns r →
    rows r !! k = Some row → rows r' !! k = Some row' →
    named_cell (columns r') row' c = named_cell (columns r) row c.

(** ** The remaining members of the class (database.py:24-25, 124-142, 321-333) *)

(** database.py:24-25 *)
Definition __repr__ (d : Database) : string :=
  "Database(" +:+ str1 dquote +:+ _name d +:+ str1 dquote +:+ ")".

(** database.py:321-324, the getter of the property [name]. *)
Definition get_name (d : Database) : string := _name d.

(** database.py:326-328, the setter of the property [name]. *)
Definition set_name (name : string) (d : Database) : Database :=
  {| _conn := _conn d; _name := name; _tables := _tables d |}.

(** database.py:330-333, the property [tables]. *)
Definition tables (d : Database) : list string := _tables d.

(** database.py:136-142: [to_sqlite] backs the whole connection up into the
    file [name], or into the file called after the instance when [name] is
    absent or empty; the result is the file written and the catalog it now
    holds. *)
Definition to_sqlite (name : option string) (d : Database) : string * gmap string relation :=
  let DB_NAME :=
    match name with
    | Some n => if String.eqb n EmptyString then _name d +:+ ".db" else n
    | None => _name d +:+ ".db"
    end in
  (DB_NAME, _conn d).

(** ** Notions for the further properties *)

(** The object after a relation is stored under [name] and the name is
    registered. *)
Definition store (name : string) (rel : relation) (d : Database) : Database :=
  {| _conn := <[name := rel]> (_conn d);
     _name := _name d;
     _tables := registered name (_tables d) |}.

(** A call of one of the methods whose statements the module builds itself. *)
Inductive op : Type :=
  | OpAddTable (table : source) (name if_exists : string)
  | OpColumnNames (table : string)
  | OpMap (func : function) (table : string) (cols : list string)
          (output : string) (overwrite : bool)
  | OpMapInto (func : function) (table output : string) (overwrite : bool).

(** The world after the call, whether it returned or raised. *)
Definition after (o : op) (w : World) : World :=
  match o with
  | OpAddTable table name if_exists => final (add_table table name if_exists) w
  | OpColumnNames table => final (column_names table) w
  | OpMap func table cols output overwrite => final (map func table cols output overwrite) w
  | OpMapInto func table output overwrite => final (map_into func table output overwrite) w
  end.

(** The world after a sequence of calls, first to last. *)
Definition session (ops : list op) (w : World) : World :=
  foldl (fun w o => after o w) w ops.

(** The name a call may store a relation under. *)
Definition target (o : op) : string :=
  match o with
  | OpAddTable _ name _ => name
  | OpColumnNames table => table
  | OpMap _ table _ _ _ => table
  | OpMapInto _ table _ _ => table
  end.

(** A directory prefix of a path: nothing, or text that ends with a slash. *)
Definition dir_prefix (dir : string) : Prop :=
  dir = EmptyString ∨ ∃ d, dir = d +:+ "/".

(** The extensions [_parse_file] has a reader for (database.py:101-105). *)
Definition supported : list string := [".csv"; ".json"; ".xlsx"].

(** ** Example inputs: the table [t] of the specification, functions over
    its columns, and tables whose names need quoting *)

Definition int_param (name : string) : param := {| pname := name; pdefault := None |}.

Definition as_int (v : option value) : pyresult Z :=
  match v with
  | Some (VInt z) => Ok z
  | _ => Raise (TypeError "unsupported operand type")
  end.

(** [def f(id, val): return id * val] *)
Definition f_id_val : function :=
  {| sig := {| posonly := []; params := [int_param "id"; int_param "val"];
               vararg := None; kwonly := []; varkw := None |};
     co_locals := [];
     body := fun env _ _ =>
       match as_int (dict_get "id" env), as_int (dict_get "val" env) with
       | Ok a, Ok b => Ok (VInt (a * b))
       | Raise e, _ | _, Raise e => Raise e
       end |}.

(** [def f_id(id): return id] *)
Definition f_id : function :=
  {| sig := {| posonly := []; params := [int_param "id"];
               vararg := None; kwonly := []; varkw := None |};
     co_locals := [];
     body := fun env _ _ =>
       match dict_get "id" env with
       | Some v => Ok v
       | None => Raise (KeyError "id")
       end |}.

(** [def f_a(a): return a] *)
Definition f_a : function :=
  {| sig := {| posonly := []; params := [int_param "a"];
               vararg := None; kwonly := []; varkw := None |};
     co_locals := [];
     body := fun env _ _ =>
       match dict_get "a" env with
       | Some v => Ok v
       | None => Raise (KeyError "a")
       end |}.



Definition df_t : DataFrame :=
  {| df_columns := ["id"; "val"];
     df_values := [[VInt 1; VInt 10]; [VInt 2; VInt 20]; [VInt 3; VInt 30]] |}.


Definition df_a : DataFrame :=
  {| df_columns := ["a"]; df_values := [[VInt 1]; [VInt 2]] |}.

Definition df_b : DataFrame :=
  {| df_columns := ["b"]; df_values := [[VInt 7]; [VInt 8]] |}.

(** The relation the example table holds. *)
Definition rel_t : relation :=
  {| columns := df_columns df_t; rows := df_values df_t |}.

(** A table whose name holds a double quote. *)
Definition name_quote : string := "we" +:+ str1 dquote +:+ "ird".

(** Two tables: [x] with the column [a], and one whose name is [x] between
    double quotes, with the column [b]. *)
Definition name_qx : string := str1 dquote +:+ "x" +:+ str1 dquote.

Definition world0 : World := {| self := new "db"; files := ∅; events := [] |}.

(** The world after the example table is ingested. *)
Definition world_t : World := final (add_table (SrcDataFrame df_t) "t" "fail") world0.


(** A table whose name holds a space. *)
Definition world_space : World :=
  final (add_table (SrcDataFrame df_t) "my table" "fail") world0.

Definition world_quote : World :=
  final (add_table (SrcDataFrame df_t) name_quote "fail") world0.

(** A table whose name holds the statement separator. *)
Definition world_sep : World :=
  final (add_table (SrcDataFrame df_t) "a;b" "fail") world0.

Definition world_qx : World :=
  final (add_table (SrcDataFrame df_b) name_qx "fail")
        (final (add_table (SrcDataFrame df_a) "x" "fail") world0).

(** A world with one file, a delimited text the reader turns into the example
    frame. *)
Definition world_files : World :=
  {| self := new "db"; files := {[ "data/sales.csv" := Ok df_t ]}; events := [] |}.


(** The example frame under the name [type], which is also the name of a
    column of the pragma. *)
Definition world_type : World :=
  final (add_table (SrcDataFrame df_t) "type" "fail") world0.

(** * Properties *)

(** ** Strings *)

Lemma str_app_cons c s t : String c s +:+ t = String c (s +:+ t).
Proof. reflexivity. Qed.

Lemma str_app_nil_r s : s +:+ EmptyString = s.
Proof. induction s as [|c s IH]; [reflexivity|]. by rewrite str_app_cons, IH. Qed.

Lemma str_app_assoc s t u : (s +:+ t) +:+ u = s +:+ t +:+ u.
Proof. induction s as [|c s IH]; [reflexivity|]. by rewrite !str_app_cons, IH. Qed.

Lemma contains_app c s t :
  PyStr.contains c (s +:+ t) = PyStr.contains c s || PyStr.contains c t.
Proof.
  induction s as [|d s IH]; [reflexivity|].
  rewrite str_app_cons. simpl. rewrite IH. by rewrite orb_assoc.
Qed.

(** A text without the separator is one piece. *)
Lemma split_no_sep c s : PyStr.contains c s = false → PyStr.split c s = [s].
Proof.
  induction s as [|d s IH]; [reflexivity|]. simpl.
  intros [Hd Hs]%orb_false_iff. rewrite Hd, (IH Hs). reflexivity.
Qed.

(** ** The tokenizer on sanitized identifiers *)

Lemma lex_quoted_body s : ∀ acc rest,
  lex_go (LQuoted acc)
    (PyStr.replace dquote (String dquote (str1 dquote)) s +:+ String dquote rest) =
  lex_go (LQuote2 (acc +:+ s)) rest.
Proof.
  induction s as [|c s IH]; intros acc rest.
  - rewrite str_app_nil_r. reflexivity.
  - simpl PyStr.replace. destruct (Ascii.eqb c dquote) eqn:Hc.
    + apply Ascii.eqb_eq in Hc as ->.
      rewrite !str_app_cons. cbn [lex_go]. rewrite Ascii.eqb_refl.
      change (EmptyString +:+ ?x) with x.
      rewrite IH. by rewrite str_app_assoc.
    + rewrite str_app_cons. cbn [lex_go]. rewrite Hc.
      rewrite IH. by rewrite str_app_assoc.
Qed.

Lemma lex_escape s rest :
  lex_go LStart (escape_sqlite_ident s +:+ rest) = lex_go (LQuote2 s) rest.
Proof.
  unfold escape_sqlite_ident.
  rewrite !str_app_cons. change (EmptyString +:+ ?x) with x.
  rewrite str_app_assoc, str_app_cons. change (EmptyString +:+ ?x) with x.
  cbn [lex_go]. change (start dquote) with (@nil token, LQuoted EmptyString).
  cbn beta iota. rewrite lex_quoted_body. reflexivity.
Qed.

Lemma lex_after_quote s rest :
  no_quote_ahead rest = true →
  lex_go (LQuote2 s) rest = TQuoted s :: lex_go LStart rest.
Proof.
  destruct rest as [|c r]; [reflexivity|]. simpl no_quote_ahead.
  intros Hc%negb_true_iff. cbn [lex_go]. rewrite Hc.
  destruct (start c) as [ts st]. reflexivity.
Qed.

Lemma lex_escape_then s rest :
  no_quote_ahead rest = true →
  lex_go LStart (escape_sqlite_ident s +:+ rest) = TQuoted s :: lex_go LStart rest.
Proof. intros H. by rewrite lex_escape, lex_after_quote. Qed.

Lemma lex_escape_alone s : lex (escape_sqlite_ident s) = [TQuoted s].
Proof.
  unfold lex. rewrite <- (str_app_nil_r (escape_sqlite_ident s)).
  by rewrite lex_escape_then.
Qed.

(** ** The parser on the statements the methods send *)

Lemma lex_head_table_info X :
  lex_go LStart ("select name from pragma_table_info(" +:+ X) =
  TWord "select" :: TWord "name" :: TWord "from" :: TWord "pragma_table_info" ::
  TLParen :: lex_go LStart X.
Proof. vm_compute. reflexivity. Qed.

Lemma lex_head_select_all X :
  lex_go LStart ("select * from " +:+ X) =
  TWord "select" :: TStar :: TWord "from" :: lex_go LStart X.
Proof. vm_compute. reflexivity. Qed.

Lemma lex_head_select X :
  lex_go LStart ("SELECT " +:+ X) = TWord "SELECT" :: lex_go LStart X.
Proof. vm_compute. reflexivity. Qed.

Lemma lex_comma X : lex_go LStart (", " +:+ X) = TComma :: lex_go LStart X.
Proof. vm_compute. reflexivity. Qed.

Lemma lex_from X :
  lex_go LStart (str1 newline +:+ spaces 18 +:+ "FROM " +:+ X) =
  TWord "FROM" :: lex_go LStart X.
Proof. vm_compute. reflexivity. Qed.

Lemma parse_table_info table :
  parse (lex (sql_table_info table)) =
  Some (if pragma_column table then SelectTableInfoSelf table else SelectTableInfo table).
Proof.
  unfold lex, sql_table_info. rewrite lex_head_table_info.
  rewrite lex_escape_then by reflexivity.
  change (lex_go LStart ")") with [TRParen].
  unfold parse. cbn [skip_separators parse_cols ident_of].
  change (is_kw "select" "select") with true. cbv iota.
  change (is_keyword "name") with false. cbv iota.
  unfold parse_from.
  change (is_kw "from" "from" && is_kw "pragma_table_info" "pragma_table_info" &&
          at_end []) with true. cbv iota.
  change (String.eqb (lower "name") "name") with true. cbv iota.
  by destruct (pragma_column table).
Qed.

Lemma parse_select_all table :
  parse (lex (sql_select_all table)) = Some (SelectAll table).
Proof.
  unfold lex, sql_select_all. rewrite lex_head_select_all.
  fold (lex (escape_sqlite_ident table)). rewrite lex_escape_alone. reflexivity.
Qed.

Lemma lex_join names : ∀ rest,
  names ≠ [] → no_quote_ahead rest = true →
  lex_go LStart (PyStr.join ", " (escape_sqlite_ident <$> names) +:+ rest) =
  sep_tokens names ++ lex_go LStart rest.
Proof.
  induction names as [|a [|b names] IH]; intros rest Hne Hrest; [done| |].
  - change (PyStr.join ", " (escape_sqlite_ident <$> [a])) with (escape_sqlite_ident a).
    by rewrite lex_escape_then.
  - change (PyStr.join ", " (escape_sqlite_ident <$> a :: b :: names)) with
      (escape_sqlite_ident a +:+ ", " +:+
       PyStr.join ", " (escape_sqlite_ident <$> b :: names)).
    rewrite !str_app_assoc. rewrite lex_escape_then by reflexivity.
    rewrite lex_comma. rewrite IH by done. reflexivity.
Qed.

Lemma parse_cols_sep names : ∀ rest,
  names ≠ [] →
  (∀ rest', rest ≠ TComma :: rest') →
  parse_cols (sep_tokens names ++ rest) = Some (names, rest).
Proof.
  induction names as [|a [|b names] IH]; intros rest Hne Hrest; [done| |].
  - simpl. destruct rest as [|[] rest']; try reflexivity. by destruct (Hrest rest').
  - change (sep_tokens (a :: b :: names) ++ rest) with
      (TQuoted a :: TComma :: (sep_tokens (b :: names) ++ rest)).
    cbn [parse_cols ident_of]. by rewrite IH.
Qed.

Lemma parse_select_args names table :
  names ≠ [] →
  parse (lex (sql_select_args names table)) = Some (SelectCols names table).
Proof.
  intros Hne. unfold lex, sql_select_args. rewrite lex_head_select.
  rewrite lex_join by done. rewrite lex_from.
  fold (lex (escape_sqlite_ident table)). rewrite lex_escape_alone.
  destruct names as [|a names]; [done|].
  assert (∃ tl, sep_tokens (a :: names) = TQuoted a :: tl) as [tl Htl].
  { destruct names; eexists; reflexivity. }
  assert (parse_cols (sep_tokens (a :: names) ++ [TWord "FROM"; TQuoted table]) =
          Some (a :: names, [TWord "FROM"; TQuoted table])) as Hp.
  { apply parse_cols_sep; done. }
  unfold parse. rewrite Htl in *. cbn [app skip_separators]. cbn [app] in Hp.
  change (is_kw "select" "SELECT") with true. cbv iota.
  rewrite Hp. reflexivity.
Qed.

(** ** Steps of the methods *)

Lemma cursor_execute_eq sql w :
  cursor_execute sql w = (Sqlite.execute (_conn (self w)) sql, logged w [EvExecute sql]).
Proof. reflexivity. Qed.

Lemma execute_raises cat sql e :
  Sqlite.execute cat sql = Raise e → ∃ msg, e = OperationalError msg.
Proof.
  unfold Sqlite.execute. destruct (parse (lex sql)) as [[t|cols t|t|c]|]; simpl.
  - destruct (resolve cat t); intros [= <-]; eauto.
  - destruct (resolve cat t) as [r|]; [|intros [= <-]; eauto].
    generalize (columns r). intros cs.
    assert (∀ e', indices cols cs = Raise e' → ∃ msg, e' = OperationalError msg) as Hi.
    { induction cols as [|c cols IH]; simpl; [done|].
      destruct (index_of c cs); [|intros e' [= <-]; eauto].
      destruct (indices cols cs); [done|]. intros e' [= <-]. eauto. }
    destruct (indices cols cs) eqn:Hix; [done|]. intros [= <-]. eauto.
  - done.
  - done.
  - intros [= <-]. eauto.
Qed.

Lemma query_many sql w :
  (1 < length (statements sql))%nat →
  query sql w = (Raise (ValueError msg_single_statement), w).
Proof.
  intros H. unfold query. fold (statements sql).
  apply Nat.ltb_lt in H. rewrite H. reflexivity.
Qed.

Lemma query_one sql w :
  (length (statements sql) ≤ 1)%nat →
  query sql w =
  (match Sqlite.execute (_conn (self w)) sql with
   | Ok rs => Ok {| t_rows := fetchall rs; t_columns := description rs |}
   | Raise e => Raise e
   end, logged w [EvExecute sql]).
Proof.
  intros H. unfold query. fold (statements sql).
  assert ((1 <? length (statements sql))%nat = false) as -> by (apply Nat.ltb_ge; lia).
  unfold mbind, M_bind, bind. rewrite cursor_execute_eq.
  destruct (Sqlite.execute (_conn (self w)) sql); reflexivity.
Qed.

Lemma statements_no_sep s :
  PyStr.contains semicolon s = false → (length (statements s) ≤ 1)%nat.
Proof.
  intros H. unfold statements. rewrite (split_no_sep _ _ H).
  apply (length_filter (fun e => e ≠ EmptyString) [s]).
Qed.

Lemma split_app_sep c s t :
  PyStr.contains c s = false →
  PyStr.split c (s +:+ String c t) = s :: PyStr.split c t.
Proof.
  induction s as [|d s IH]; intros H.
  - change (EmptyString +:+ String c t) with (String c t).
    simpl. by rewrite Ascii.eqb_refl.
  - simpl in H. apply orb_false_iff in H as [Hd Hs].
    rewrite str_app_cons. simpl. rewrite Hd, (IH Hs). reflexivity.
Qed.

Lemma contains_replace c new s :
  PyStr.contains c new = PyStr.contains c (str1 dquote) →
  PyStr.contains c (PyStr.replace dquote new s) = PyStr.contains c s.
Proof.
  intros Hnew. induction s as [|d s IH]; [reflexivity|]. simpl.
  destruct (Ascii.eqb d dquote) eqn:Hd.
  - apply Ascii.eqb_eq in Hd as ->. rewrite contains_app, Hnew, IH. simpl.
    by rewrite orb_false_r.
  - simpl. by rewrite IH.
Qed.

Lemma contains_escape s :
  PyStr.contains semicolon (escape_sqlite_ident s) = PyStr.contains semicolon s.
Proof.
  unfold escape_sqlite_ident. rewrite !contains_app.
  rewrite contains_replace by reflexivity. simpl. by rewrite orb_false_r.
Qed.

Lemma resolve_exact cat t r : cat !! t = Some r → resolve cat t = Some r.
Proof. intros H. unfold resolve. by rewrite H. Qed.

Lemma introspected_exact w table r :
  pragma_column table = false → _conn (self w) !! table = Some r →
  introspected w table = columns r.
Proof. intros Hp Hr. unfold introspected. by rewrite Hp, (resolve_exact _ _ _ Hr). Qed.

Lemma introspected_pragma_column w table :
  pragma_column table = true → introspected w table = [].
Proof. intros Hp. unfold introspected. by rewrite Hp. Qed.

Lemma column_names_eq table w :
  column_names table w =
  (Ok (VText <$> introspected w table), logged w [EvExecute (sql_table_info table)]).
Proof.
  unfold column_names. fold (sql_table_info table).
  unfold mbind, M_bind, bind. rewrite cursor_execute_eq.
  unfold Sqlite.execute. rewrite parse_table_info. unfold introspected.
  destruct (pragma_column table); [reflexivity|]. simpl.
  unfold ret. do 2 f_equal.
  destruct (resolve (_conn (self w)) table) as [r|]; [|reflexivity].
  rewrite <- list_fmap_compose. reflexivity.
Qed.

Lemma replace_doubled s :
  PyStr.replace dquote (String dquote (str1 dquote)) s = doubled s.
Proof.
  induction s as [|c s IH]; [reflexivity|]. simpl.
  destruct (Ascii.eqb c dquote); by rewrite IH.
Qed.

(** ** The sanitizer, the statement check and the schema read *)

(** C7. The identifier sanitizer is a total function of its argument: for every
    string [s] it returns [s] between two double quotes with every double
    quote of [s] written twice, and that text is one quoted identifier for the
    tokenizer, which reads [s] back from it, alone or followed by more SQL
    text, so that a statement built with it names [s] whatever [s] holds. *)
Theorem escape_sqlite_ident_quotes (s : string) :
  escape_sqlite_ident s = quoted_form s ∧
  lex (escape_sqlite_ident s) = [TQuoted s] ∧
  (∀ rest, no_quote_ahead rest = true →
     lex_go LStart (escape_sqlite_ident s +:+ rest) = TQuoted s :: lex_go LStart rest) ∧
  parse (lex (sql_select_all s)) = Some (SelectAll s).
Proof.
  split; [|split; [|split]].
  - unfold escape_sqlite_ident, quoted_form. by rewrite replace_doubled.
  - apply lex_escape_alone.
  - intros rest. apply lex_escape_then.
  - apply parse_select_all.
Qed.

(** C6. [query] splits its argument on the separator and raises the
    single-statement error exactly when more than one non-empty piece results;
    it raises before the cursor is touched, leaving the world as it was (the
    example of the specification, two selects around a separator, is such a
    text). With at most one non-empty piece the text is handed to the cursor,
    once and as it is; when it is a select the engine answers with at least
    one row, [query] returns the rows and the column names of that answer and
    leaves the catalog alone. A text without separator, with or without one
    trailing separator, has at most one non-empty piece; two non-empty
    statements around a separator are refused. *)
Theorem query_single_statement (sql : string) (w : World) :
  (outcome (query sql) w = Raise (ValueError msg_single_statement) ↔
   (1 < length (statements sql))%nat) ∧
  ((1 < length (statements sql))%nat → final (query sql) w = w) ∧
  query "SELECT 1; SELECT 2" w = (Raise (ValueError msg_single_statement), w) ∧
  ((length (statements sql) ≤ 1)%nat →
   events (final (query sql) w) = events w ++ [EvExecute sql] ∧
   ∀ s rs, parse (lex sql) = Some s →
           run (_conn (self w)) s = Ok rs → fetchall rs ≠ [] →
           query sql w =
           (Ok {| t_rows := fetchall rs; t_columns := description rs |},
            logged w [EvExecute sql])) ∧
  (PyStr.contains semicolon sql = false →
   (length (statements sql) ≤ 1)%nat ∧
   (length (statements (sql +:+ str1 semicolon)) ≤ 1)%nat ∧
   ∀ more, sql ≠ EmptyString → more ≠ EmptyString →
     PyStr.contains semicolon more = false →
     (1 < length (statements (sql +:+ String semicolon more)))%nat).
Proof.
  split; [|split; [|split; [|split]]].
  - split.
    + intros H. destruct (decide (1 < length (statements sql))%nat) as [|Hle]; [done|].
      unfold outcome in H. rewrite query_one in H by lia. simpl in H.
      destruct (Sqlite.execute (_conn (self w)) sql) eqn:He; [done|].
      apply execute_raises in He as [msg ->]. done.
    + intros H. unfold outcome. by rewrite query_many.
  - intros H. unfold final. by rewrite query_many.
  - apply query_many. vm_compute. lia.
  - intros H. split; [unfold final; by rewrite query_one|].
    intros s rs Hs Hrs _. rewrite query_one by done.
    unfold Sqlite.execute. by rewrite Hs, Hrs.
  - intros Hs. split; [by apply statements_no_sep|]. split.
    + unfold statements. rewrite split_app_sep by done. simpl PyStr.split.
      rewrite filter_cons. destruct (decide (sql ≠ EmptyString)); simpl; lia.
    + intros more Hne Hmore Hm. unfold statements.
      rewrite split_app_sep by done. rewrite (split_no_sep _ _ Hm).
      rewrite filter_cons_True by done. rewrite filter_cons_True by done.
      simpl. lia.
Qed.




(** ** Ingestion *)

Lemma add_table_known_fail table name w :
  name ∈ _tables (self w) →
  add_table table name "fail" w = (Raise (ValueError (msg_table_exists name)), w).
Proof.
  intros H. unfold add_table.
  change (negb (bool_decide ("fail" ∈ ["fail"; "replace"; "append"]))) with false.
  cbv iota. unfold mbind, M_bind, bind, get_self.
  rewrite (bool_decide_true _ H). reflexivity.
Qed.

Lemma add_table_registers table name if_exists w :
  outcome (add_table table name if_exists) w = Ok tt →
  name ∈ _tables (self (final (add_table table name if_exists) w)).
Proof.
  unfold outcome, final, add_table.
  destruct (negb (bool_decide (if_exists ∈ ["fail"; "replace"; "append"]))); [done|].
  unfold mbind, M_bind, bind, get_self.
  destruct (bool_decide (name ∈ _tables (self w)) && String.eqb if_exists "fail"); [done|].
  match goal with |- context [match ?step w with _ => _ end] => destruct (step w) as [[[]|e] w1] end;
    [|done].
  destruct (bool_decide (name ∈ _tables (self w1))) eqn:Hin; simpl.
  - intros _. by apply bool_decide_eq_true in Hin.
  - intros _. set_solver.
Qed.

Lemma create_table_ok name df cat :
  df_columns df ≠ [] → NoDup (df_columns df) →
  create_table name df cat =
  Ok (<[name := {| columns := df_columns df; rows := df_values df |}]> cat).
Proof.
  intros Hne Hnd. unfold create_table.
  rewrite (bool_decide_false _ Hne), (bool_decide_true _ Hnd). reflexivity.
Qed.

Lemma add_table_fresh df name w :
  _conn (self w) !! name = None → name ∉ _tables (self w) →
  df_columns df ≠ [] → NoDup (df_columns df) →
  add_table (SrcDataFrame df) name "fail" w =
  (Ok tt,
   {| self := {| _conn := <[name := {| columns := df_columns df; rows := df_values df |}]>
                            (_conn (self w));
                 _name := _name (self w);
                 _tables := _tables (self w) ++ [name] |};
      files := files w;
      events := events w ++ [EvToSql name "fail"] |}).
Proof.
  intros Hcat Hreg Hne Hnd. unfold add_table.
  change (negb (bool_decide ("fail" ∈ ["fail"; "replace"; "append"]))) with false.
  cbv iota. unfold mbind, M_bind, bind, get_self.
  rewrite (bool_decide_false _ Hreg). simpl andb. cbv iota.
  unfold _parse_dataframe, mbind, M_bind, bind, emit, get_self, lift, put_self. simpl.
  unfold to_sql. simpl. rewrite Hcat, create_table_ok by done. simpl.
  rewrite (bool_decide_false _ Hreg). reflexivity.
Qed.

(** C5. [add_table] with a name the instance already knows and the policy
    [fail] raises the already-exists error and leaves the world as it was: no
    event is recorded, so nothing was handed to the engine, and the relation
    and the registry are unchanged. After any successful ingestion under a
    name, ingesting again under that name with [fail] raises this error; and
    ingesting a valid frame under a fresh name with [fail] does succeed and
    stores the frame. *)
Theorem add_table_fail_policy (table : source) (name : string) (w : World) :
  (name ∈ _tables (self w) →
   add_table table name "fail" w = (Raise (ValueError (msg_table_exists name)), w)) ∧
  (∀ first if_exists,
     outcome (add_table first name if_exists) w = Ok tt →
     let w1 := final (add_table first name if_exists) w in
     add_table table name "fail" w1 = (Raise (ValueError (msg_table_exists name)), w1)) ∧
  (∀ df,
     _conn (self w) !! name = None → name ∉ _tables (self w) →
     df_columns df ≠ [] → NoDup (df_columns df) →
     let w1 := final (add_table (SrcDataFrame df) name "fail") w in
     outcome (add_table (SrcDataFrame df) name "fail") w = Ok tt ∧
     _conn (self w1) !! name =
       Some {| columns := df_columns df; rows := df_values df |} ∧
     add_table table name "fail" w1 = (Raise (ValueError (msg_table_exists name)), w1) ∧
     _conn (self (final (add_table table name "fail") w1)) !! name =
       Some {| columns := df_columns df; rows := df_values df |}).
Proof.
  split; [|split].
  - apply add_table_known_fail.
  - intros first if_exists Hok w1. apply add_table_known_fail.
    by apply add_table_registers.
  - intros df Hcat Hreg Hne Hnd w1.
    assert (outcome (add_table (SrcDataFrame df) name "fail") w = Ok tt) as Hok.
    { unfold outcome. by rewrite add_table_fresh. }
    assert (_conn (self w1) !! name =
            Some {| columns := df_columns df; rows := df_values df |}) as Hrel.
    { unfold w1, final. rewrite add_table_fresh by done. simpl.
      apply lookup_insert_eq. }
    assert (add_table table name "fail" w1 =
            (Raise (ValueError (msg_table_exists name)), w1)) as Hfail.
    { apply add_table_known_fail. by apply add_table_registers. }
    repeat split; try done. unfold final at 1. by rewrite Hfail.
Qed.

(** On the empty database, for the example frame ingested as [t]. *)
Lemma add_table_fail_policy_witness :
  let w1 := final (add_table (SrcDataFrame df_t) "t" "fail") world0 in
  outcome (add_table (SrcDataFrame df_t) "t" "fail") world0 = Ok tt ∧
  _conn (self w1) !! "t" =
    Some {| columns := df_columns df_t; rows := df_values df_t |} ∧
  add_table (SrcDataFrame df_t) "t" "fail" w1 =
    (Raise (ValueError (msg_table_exists "t")), w1) ∧
  _conn (self (final (add_table (SrcDataFrame df_t) "t" "fail") w1)) !! "t" =
    Some {| columns := df_columns df_t; rows := df_values df_t |}.
Proof.
  apply (add_table_fail_policy (SrcDataFrame df_t) "t" world0).
  - reflexivity.
  - vm_compute. by apply not_elem_of_nil.
  - discriminate.
  - compute_done.
Defined.

(** C1. End to end: after the three-row source with columns [id] (1, 2, 3) and
    [val] (10, 20, 30) is ingested as [t], [map_into] with [f(id, val)]
    returning [id * val] and output [total] succeeds; [t] then holds the rows
    (1, 10, 10), (2, 20, 40), (3, 30, 90), and [column_names] lists [total]
    last, after the two columns that were there, which were fetched again in
    full before the new column was attached. *)
Theorem map_into_end_to_end :
  let w1 := final (add_table (SrcDataFrame df_t) "t" "fail") world0 in
  let w2 := final (map_into f_id_val "t" "total" false) w1 in
  outcome (add_table (SrcDataFrame df_t) "t" "fail") world0 = Ok tt ∧
  outcome (map_into f_id_val "t" "total" false) w1 = Ok tt ∧
  outcome (query "SELECT * FROM t") w2 =
    Ok {| t_rows := [[VInt 1; VInt 10; VInt 10]; [VInt 2; VInt 20; VInt 40];
                     [VInt 3; VInt 30; VInt 90]];
          t_columns := ["id"; "val"; "total"] |} ∧
  outcome (column_names "t") w2 = Ok [VText "id"; VText "val"; VText "total"] ∧
  last (schema w2 "t") = Some "total" ∧
  _tables (self w2) = ["t"] ∧
  events w2 =
    [ EvToSql "t" "fail";
      EvExecute (sql_table_info "t");
      EvExecute (sql_select_args ["id"; "val"] "t");
      EvCall [] [("id", VInt 1); ("val", VInt 10)];
      EvCall [] [("id", VInt 2); ("val", VInt 20)];
      EvCall [] [("id", VInt 3); ("val", VInt 30)];
      EvExecute (sql_select_all "t");
      EvToSql "t" "replace" ].
Proof. vm_compute. repeat split. Qed.

(** ** The binding phase of [map_into] *)

Lemma elem_of_VText a (cols : list string) : VText a ∈ VText <$> cols ↔ a ∈ cols.
Proof.
  rewrite list_elem_of_fmap. split.
  - intros (x & [= ->] & Hx). done.
  - intros H. eauto.
Qed.

Lemma check_bound_eq table args cols w :
  check_bound table args (VText <$> cols) w =
  (match first_unbound args cols with
   | None => Ok tt
   | Some a => Raise (ValueError (msg_unbound a table))
   end, w).
Proof.
  induction args as [|a args IH]; [reflexivity|]. simpl.
  destruct (decide (a ∈ cols)) as [Hin|Hin].
  - rewrite (bool_decide_true (a ∈ cols)) by done.
    rewrite bool_decide_true by (by apply elem_of_VText). apply IH.
  - rewrite (bool_decide_false (a ∈ cols)) by done.
    rewrite bool_decide_false by (by rewrite elem_of_VText). reflexivity.
Qed.

Lemma first_unbound_None args cols :
  first_unbound args cols = None ↔ Forall (fun a => a ∈ cols) args.
Proof.
  induction args as [|a args IH]; simpl.
  - split; [constructor|done].
  - rewrite Forall_cons. case_bool_decide; [tauto|]. split; [done|tauto].
Qed.


Lemma map_into_unbound func table output overwrite w a :
  first_unbound (arg_names func) (introspected w table) = Some a →
  map_into func table output overwrite w =
  (Raise (ValueError (msg_unbound a table)), logged w [EvExecute (sql_table_info table)]).
Proof.
  intros H. unfold map_into, mbind, M_bind, bind. rewrite column_names_eq.
  rewrite check_bound_eq. simpl. by rewrite H.
Qed.

(** C3 (the code at the failing input). The example frame is stored under the
    name [type]; the relation is there and has the column [id], and a select
    from it returns its rows. Yet the read of the schema yields no column
    name: in the statement [column_names] sends, the quoted table name is
    taken for the column [type] of the pragma. So [map_into] with a function
    of the one parameter [id] raises the unbound-parameter error for [id],
    although [id] is a column of the table. Under the name [t] the same call
    succeeds. *)
Theorem map_into_binding_on_pragma_name :
  _conn (self world_type) !! "type" = Some rel_t ∧
  Forall (fun a => a ∈ columns rel_t) (arg_names f_id) ∧
  outcome (query (sql_select_all "type")) world_type =
    Ok {| t_rows := rows rel_t; t_columns := ["id"; "val"] |} ∧
  outcome (column_names "type") world_type = Ok [] ∧
  map_into f_id "type" "out" false world_type =
    (Raise (ValueError (msg_unbound "id" "type")),
     logged world_type [EvExecute (sql_table_info "type")]) ∧
  outcome (column_names "t") world_t = Ok [VText "id"; VText "val"] ∧
  outcome (map_into f_id "t" "out" false) world_t = Ok tt.
Proof.
  split; [reflexivity|]. split; [compute_done|]. vm_compute. repeat split.
Qed.

(** ** Fetching in [map_into] *)

Lemma logged_logged w evs1 evs2 : logged (logged w evs1) evs2 = logged w (evs1 ++ evs2).
Proof. unfold logged. simpl. by rewrite app_assoc. Qed.

Lemma index_of_elem c (cols : list string) :
  c ∈ cols → ∃ i, index_of c cols = Some i.
Proof.
  induction cols as [|d cols IH]; [by intros ?%elem_of_nil|].
  simpl. destruct (String.eqb d c) eqn:Hd; [eauto|].
  intros [->|Hin]%elem_of_cons.
  - by rewrite String.eqb_refl in Hd.
  - destruct (IH Hin) as [i ->]. eauto.
Qed.

Lemma index_of_None c (cols : list string) :
  c ∉ cols → index_of c cols = None.
Proof.
  induction cols as [|d cols IH]; [done|].
  intros Hnin. simpl. destruct (String.eqb d c) eqn:Hd.
  - apply String.eqb_eq in Hd as ->. destruct Hnin. by left.
  - rewrite IH; [done|]. intros ?. destruct Hnin. by right.
Qed.

Lemma indices_ok (args cols : list string) :
  Forall (fun a => a ∈ cols) args →
  indices args cols = Ok (col_pos cols <$> args).
Proof.
  induction 1 as [|a args Ha _ IH]; [reflexivity|]. simpl.
  unfold col_pos at 1. destruct (index_of_elem _ _ Ha) as [i ->].
  by rewrite IH.
Qed.

Lemma cells_named (args cols : list string) row :
  Forall (fun a => a ∈ cols) args →
  cell row <$> (col_pos cols <$> args) = named_cell cols row <$> args.
Proof.
  induction 1 as [|a args Ha _ IH]; [reflexivity|].
  rewrite !fmap_cons, IH. f_equal.
  unfold col_pos, named_cell. by destruct (index_of_elem _ _ Ha) as [i ->].
Qed.

Lemma identifier_char_no_sep c :
  is_upper c || is_lower c || (code c =? 95)%nat || (128 <=? code c)%nat || is_digit c = true →
  Ascii.eqb c semicolon = false.
Proof.
  intros H. destruct (Ascii.eqb c semicolon) eqn:Hc; [|done].
  apply Ascii.eqb_eq in Hc as ->. vm_compute in H. discriminate H.
Qed.

Lemma all_chars_no_sep (p : ascii → bool) s :
  (∀ c, p c = true → Ascii.eqb c semicolon = false) →
  all_chars p s = true → PyStr.contains semicolon s = false.
Proof.
  intros Hp. induction s as [|d s IH]; [done|].
  cbn [all_chars PyStr.contains]. intros [Hd Hs]%andb_true_iff.
  by rewrite (Hp _ Hd), (IH Hs).
Qed.

Lemma identifier_no_sep a : py_identifier a = true → PyStr.contains semicolon a = false.
Proof.
  destruct a as [|c s]; [done|]. unfold py_identifier.
  intros [Hc Hs]%andb_true_iff. cbn [PyStr.contains].
  rewrite identifier_char_no_sep by (by rewrite Hc).
  apply (all_chars_no_sep _ _ identifier_char_no_sep Hs).
Qed.

Lemma contains_join_escaped (args : list string) :
  Forall (fun a => PyStr.contains semicolon a = false) args →
  PyStr.contains semicolon (PyStr.join ", " (escape_sqlite_ident <$> args)) = false.
Proof.
  induction 1 as [|a args Ha Hargs IH]; [reflexivity|].
  destruct args as [|b args].
  - change (PyStr.join ", " (escape_sqlite_ident <$> [a])) with (escape_sqlite_ident a).
    by rewrite contains_escape.
  - change (PyStr.join ", " (escape_sqlite_ident <$> a :: b :: args)) with
      (escape_sqlite_ident a +:+ ", " +:+
       PyStr.join ", " (escape_sqlite_ident <$> b :: args)).
    by rewrite !contains_app, contains_escape, Ha, IH.
Qed.

Lemma select_args_one_statement (args : list string) table :
  Forall (fun a => PyStr.contains semicolon a = false) args →
  PyStr.contains semicolon table = false →
  (length (statements (sql_select_args args table)) ≤ 1)%nat.
Proof.
  intros Hargs Htable. apply statements_no_sep. unfold sql_select_args.
  by rewrite !contains_app, contains_join_escaped, contains_escape, Htable.
Qed.

Lemma select_all_one_statement table :
  PyStr.contains semicolon table = false →
  (length (statements (sql_select_all table)) ≤ 1)%nat.
Proof.
  intros Htable. apply statements_no_sep. unfold sql_select_all.
  by rewrite !contains_app, contains_escape, Htable.
Qed.

Lemma query_select_args (args : list string) table w r :
  _conn (self w) !! table = Some r →
  args ≠ [] →
  Forall (fun a => a ∈ columns r) args →
  Forall (fun a => PyStr.contains semicolon a = false) args →
  PyStr.contains semicolon table = false →
  query (sql_select_args args table) w =
  (Ok {| t_rows := (fun row => named_cell (columns r) row <$> args) <$> rows r;
         t_columns := args |},
   logged w [EvExecute (sql_select_args args table)]).
Proof.
  intros Hr Hne Hin Hsep Htable.
  rewrite query_one by (by apply select_args_one_statement).
  unfold Sqlite.execute. rewrite parse_select_args by done. simpl.
  rewrite (resolve_exact _ _ _ Hr), indices_ok by done. simpl. do 3 f_equal.
  apply list_fmap_ext. intros _ row _. by apply cells_named.
Qed.

Lemma query_select_all table w r :
  _conn (self w) !! table = Some r →
  PyStr.contains semicolon table = false →
  query (sql_select_all table) w =
  (Ok {| t_rows := rows r; t_columns := columns r |},
   logged w [EvExecute (sql_select_all table)]).
Proof.
  intros Hr Htable. rewrite query_one by (by apply select_all_one_statement).
  unfold Sqlite.execute. rewrite parse_select_all. simpl.
  by rewrite (resolve_exact _ _ _ Hr).
Qed.

Lemma map_into_fetched func table output overwrite w r :
  pragma_column table = false →
  _conn (self w) !! table = Some r →
  arg_names func ≠ [] →
  Forall (fun a => a ∈ columns r) (arg_names func) →
  Forall (fun a => PyStr.contains semicolon a = false) (arg_names func) →
  PyStr.contains semicolon table = false →
  map_into func table output overwrite w =
  let w1 := logged w [EvExecute (sql_table_info table);
                      EvExecute (sql_select_args (arg_names func) table)] in
  if bool_decide (output ∈ columns r) && negb overwrite then
    (Raise (ValueError (msg_column_exists output)), w1)
  else
    (result ← comprehension (fun row => invoke func [] row)
       (to_dict_records
          {| df_columns := arg_names func;
             df_values := (fun row => named_cell (columns r) row <$> arg_names func)
                          <$> rows r |});
     t ← query (sql_select_all table);
     df ← lift (setitem (to_dataframe t) output result);
     add_table (SrcDataFrame df) table "replace") w1.
Proof.
  intros Hp Hr Hne Hin Hsep Htable. cbv zeta.
  unfold map_into. fold (sql_select_args (arg_names func) table).
  fold (sql_select_all table).
  unfold mbind at 1 2 3. unfold M_bind at 1 2 3. unfold bind at 1 2 3.
  rewrite column_names_eq, (introspected_exact _ _ r) by done.
  rewrite check_bound_eq.
  assert (first_unbound (arg_names func) (columns r) = None) as ->
    by (by apply first_unbound_None).
  rewrite (query_select_args _ _ _ r) by done.
  rewrite logged_logged. cbn [app].
  rewrite (bool_decide_ext _ (output ∈ columns r)) by apply elem_of_VText.
  destruct (bool_decide (output ∈ columns r) && negb overwrite); reflexivity.
Qed.

(** ** The overwrite guard *)


Lemma query_ok_world sql w t w' :
  query sql w = (Ok t, w') → w' = logged w [EvExecute sql].
Proof.
  destruct (decide (1 < length (statements sql))%nat).
  - by rewrite query_many.
  - rewrite query_one by lia. by intros [= _ <-].
Qed.

Lemma arg_names_no_sep func :
  well_formed func →
  Forall (fun a => PyStr.contains semicolon a = false) (arg_names func).
Proof.
  intros [_ Hid]. unfold arg_names. apply Forall_take.
  eapply Forall_impl; [exact Hid|]. intros a. apply identifier_no_sep.
Qed.

Lemma map_guard func table cols output w t w' :
  query (sql_map_fetch table) w = (Ok t, w') →
  output ∈ t_columns t →
  map func table cols output false w =
  (Raise (ValueError (msg_column_exists output)),
   logged w [EvExecute (sql_map_fetch table)]).
Proof.
  intros Hq Hin. unfold map. fold (sql_map_fetch table).
  unfold mbind at 1. unfold M_bind at 1. unfold bind at 1. rewrite Hq.
  simpl df_columns. rewrite (bool_decide_true _ Hin). simpl.
  by rewrite (query_ok_world _ _ _ _ Hq).
Qed.


(** C4 (the code at the failing input). There is a table [x] with the column
    [a], and a table whose name is [x] between double quotes, with the column
    [b] holding 7 and 8. [map] on the latter with the output [b] and
    [overwrite] false does not raise the column-exists error: the statement
    it sends names [x] (database.py:231 puts the table name in as it is), so
    the guard looks for [b] among the columns of [x]. The call succeeds, the
    user function is called on both rows, and the relation is replaced: its
    column [b] now holds what the function returned. On the example table,
    whose name the statement does denote, the guard of [map] works, as does
    that of [map_into]. *)
Theorem map_overwrites_existing_column :
  _conn (self world_qx) !! name_qx =
    Some {| columns := ["b"]; rows := [[VInt 7]; [VInt 8]] |} ∧
  map f_a name_qx ["a"] "b" false world_qx =
    (Ok tt,
     {| self := {| _conn := <[ name_qx := {| columns := ["a"; "b"];
                                             rows := [[VInt 1; VInt 1]; [VInt 2; VInt 2]] |} ]>
                              (_conn (self world_qx));
                   _name := "db";
                   _tables := ["x"; name_qx] |};
        files := ∅;
        events := events world_qx ++
                  [ EvExecute (sql_map_fetch name_qx);
                    EvCall [VInt 1] []; EvCall [VInt 2] [];
                    EvToSql name_qx "replace" ] |}) ∧
  map f_id_val "t" ["id"; "val"] "val" false world_t =
    (Raise (ValueError (msg_column_exists "val")),
     logged world_t [EvExecute (sql_map_fetch "t")]) ∧
  map_into f_id_val "t" "val" false world_t =
    (Raise (ValueError (msg_column_exists "val")),
     logged world_t [EvExecute (sql_table_info "t");
                     EvExecute (sql_select_args ["id"; "val"] "t")]).
Proof.
  split; [reflexivity|]. split; [|split; reflexivity].
  vm_compute. reflexivity.
Qed.

(** ** Calling the user function row by row *)

Lemma dict_set_fresh k v (d : dict) :
  k ∉ d.*1 → dict_set k v d = d ++ [(k, v)].
Proof.
  induction d as [|[k' v'] d IH]; [done|]. simpl. intros Hk.
  destruct (String.eqb k' k) eqn:Hkk.
  - apply String.eqb_eq in Hkk as ->. destruct Hk. by left.
  - rewrite IH; [done|]. intros ?. destruct Hk. by right.
Qed.

Lemma dict_of_pairs_go (kvs : list (string * value)) : ∀ d : dict,
  NoDup (d.*1 ++ kvs.*1) →
  foldl (fun d kv => dict_set kv.1 kv.2 d) d kvs = d ++ kvs.
Proof.
  induction kvs as [|[k v] kvs IH]; intros d Hnd.
  - by rewrite app_nil_r.
  - simpl. simpl in Hnd. rewrite dict_set_fresh.
    + rewrite IH; [by rewrite <- app_assoc|].
      rewrite fmap_app. simpl. by rewrite <- app_assoc.
    + apply NoDup_app in Hnd as (_ & Hdis & _). intros Hk.
      apply (Hdis _ Hk). by left.
Qed.

Lemma dict_of_pairs_nodup (kvs : list (string * value)) :
  NoDup kvs.*1 → dict_of_pairs kvs = kvs.
Proof. intros H. unfold dict_of_pairs. by rewrite dict_of_pairs_go. Qed.

Lemma zip_named (names : list string) (f : string → value) :
  zip names (f <$> names) = (fun a => (a, f a)) <$> names.
Proof. induction names as [|a names IH]; [done|]. simpl. f_equal. exact IH. Qed.

Lemma to_dict_records_named (names cols : list string) (rws : list (list value)) :
  NoDup names →
  to_dict_records
    {| df_columns := names;
       df_values := (fun row => named_cell cols row <$> names) <$> rws |} =
  kwargs_of cols names <$> rws.
Proof.
  intros Hnd. unfold to_dict_records. simpl. rewrite <- list_fmap_compose.
  apply list_fmap_ext. intros _ row _. simpl.
  rewrite zip_named. apply dict_of_pairs_nodup.
  unfold kwargs_of. rewrite <- list_fmap_compose.
  change (fst ∘ _) with (@id string). by rewrite list_fmap_id.
Qed.

Lemma comprehension_invoke func (kws : list dict) w :
  comprehension (fun row => invoke func [] row) kws w =
  ((call_each func kws).1, logged w (EvCall [] <$> (call_each func kws).2)).
Proof.
  revert w. induction kws as [|kw kws IH]; intros w.
  - simpl. unfold ret, logged. simpl. rewrite app_nil_r. by destruct w.
  - cbn [comprehension call_each].
    unfold mbind at 1. unfold M_bind at 1. unfold bind at 1.
    unfold invoke at 1. unfold mbind at 1. unfold M_bind at 1. unfold bind at 1.
    unfold emit, lift. fold (logged w [EvCall [] kw]).
    destruct (call func [] kw) as [v|e]; [|reflexivity].
    unfold mbind at 1. unfold M_bind at 1. unfold bind at 1.
    rewrite IH. destruct (call_each func kws) as [[vs|e] called]; simpl;
      by rewrite logged_logged.
Qed.

Lemma call_each_ok func (kws : list dict) vals called :
  call_each func kws = (Ok vals, called) →
  called = kws ∧ length vals = length kws.
Proof.
  revert vals called. induction kws as [|kw kws IH]; intros vals called.
  - by intros [= <- <-].
  - simpl. destruct (call func [] kw); [|done].
    destruct (call_each func kws) as [[vs|e] cd]; [|done].
    intros [= <- <-]. destruct (IH _ _ eq_refl) as [-> Hlen].
    split; [done|]. simpl. by rewrite Hlen.
Qed.


(** ** Writing the new column back *)

Lemma setitem_with_column r output vals :
  length vals = length (rows r) →
  setitem {| df_columns := columns r; df_values := rows r |} output vals =
  Ok {| df_columns := columns (with_column r output vals);
        df_values := rows (with_column r output vals) |}.
Proof.
  intros Hlen. unfold setitem, with_column. simpl.
  rewrite Hlen, Nat.eqb_refl. by destruct (index_of output (columns r)).
Qed.

Lemma with_column_columns_ne r output vals :
  columns r ≠ [] → columns (with_column r output vals) ≠ [].
Proof.
  intros Hne. unfold with_column.
  destruct (index_of output (columns r)); simpl; [done|].
  by destruct (columns r).
Qed.

Lemma with_column_NoDup r output vals :
  NoDup (columns r) → NoDup (columns (with_column r output vals)).
Proof.
  intros Hnd. unfold with_column.
  destruct (index_of output (columns r)) eqn:Hix; simpl; [done|].
  apply NoDup_app. split; [done|]. split; [|apply NoDup_singleton].
  intros x Hx ->%list_elem_of_singleton.
  destruct (index_of_elem _ _ Hx) as [i Hi]. congruence.
Qed.

Lemma add_table_replace df name w :
  df_columns df ≠ [] → NoDup (df_columns df) →
  add_table (SrcDataFrame df) name "replace" w =
  (Ok tt,
   {| self := {| _conn := <[name := {| columns := df_columns df; rows := df_values df |}]>
                            (_conn (self w));
                 _name := _name (self w);
                 _tables := registered name (_tables (self w)) |};
      files := files w;
      events := events w ++ [EvToSql name "replace"] |}).
Proof.
  intros Hne Hnd. unfold add_table.
  change (negb (bool_decide ("replace" ∈ ["fail"; "replace"; "append"]))) with false.
  cbv iota. unfold mbind, M_bind, bind, get_self.
  change (String.eqb "replace" "fail") with false. rewrite andb_false_r.
  unfold _parse_dataframe, mbind, M_bind, bind, emit, get_self, lift, put_self. simpl.
  unfold to_sql. simpl. rewrite create_table_ok by done. simpl.
  rewrite insert_delete_eq. unfold registered.
  destruct (bool_decide (name ∈ _tables (self w))); reflexivity.
Qed.


Lemma arg_names_NoDup func : well_formed func → NoDup (arg_names func).
Proof.
  intros [Hnd _]. unfold arg_names.
  eapply sublist_NoDup; [exact Hnd|]. apply sublist_take.
Qed.

(** [map_into] from its fetch on, for a table of the catalog whose columns the
    parameters name. *)
Lemma map_into_run func table output overwrite w r :
  pragma_column table = false →
  _conn (self w) !! table = Some r →
  NoDup (columns r) →
  well_formed func →
  arg_names func ≠ [] →
  Forall (fun a => a ∈ columns r) (arg_names func) →
  PyStr.contains semicolon table = false →
  (output ∉ columns r ∨ overwrite = true) →
  map_into func table output overwrite w =
  let reads := [EvExecute (sql_table_info table);
                EvExecute (sql_select_args (arg_names func) table)] in
  match call_each func (kwargs_of (columns r) (arg_names func) <$> rows r) with
  | (Raise e, called) => (Raise e, logged w (reads ++ (EvCall [] <$> called)))
  | (Ok vals, called) =>
      (Ok tt,
       {| self := {| _conn := <[table := with_column r output vals]> (_conn (self w));
                     _name := _name (self w);
                     _tables := registered table (_tables (self w)) |};
          files := files w;
          events := events w ++ reads ++ (EvCall [] <$> called) ++
                    [EvExecute (sql_select_all table); EvToSql table "replace"] |})
  end.
Proof.
  intros Hp Hr Hnd Hwf Hne Hin Htable Hout. cbv zeta.
  rewrite (map_into_fetched _ _ _ _ _ r) by (try done; by apply arg_names_no_sep).
  cbv zeta.
  assert (bool_decide (output ∈ columns r) && negb overwrite = false) as ->.
  { destruct Hout as [Hout| ->]; [|by rewrite andb_false_r].
    by rewrite (bool_decide_false _ Hout). }
  rewrite to_dict_records_named by (by apply arg_names_NoDup).
  unfold mbind at 1. unfold M_bind at 1. unfold bind at 1.
  rewrite comprehension_invoke.
  destruct (call_each func (kwargs_of (columns r) (arg_names func) <$> rows r))
    as [[vals|e] called] eqn:Hcalls; cbn [fst snd].
  2:{ by rewrite logged_logged. }
  apply call_each_ok in Hcalls as [-> Hlen]. rewrite length_fmap in Hlen.
  unfold mbind at 1. unfold M_bind at 1. unfold bind at 1.
  rewrite (query_select_all _ _ r) by done.
  unfold mbind at 1. unfold M_bind at 1. unfold bind at 1.
  unfold lift at 1. unfold to_dataframe. cbn [t_columns t_rows].
  rewrite setitem_with_column by done.
  rewrite add_table_replace.
  - unfold logged. cbn [self files events _conn _name _tables df_columns df_values].
    do 2 f_equal.
    + by destruct (with_column r output vals).
    + rewrite <- !app_assoc. reflexivity.
  - cbn [df_columns]. apply with_column_columns_ne.
    destruct (arg_names func) as [|a args]; [done|].
    apply Forall_inv in Hin. intros Heq. rewrite Heq in Hin. by apply elem_of_nil in Hin.
  - cbn [df_columns]. by apply with_column_NoDup.
Qed.

(** ** Binding by name *)

Lemma index_of_lookup c (cols : list string) i :
  index_of c cols = Some i → cols !! i = Some c.
Proof.
  revert i. induction cols as [|d cols IH]; intros i; [done|]. simpl.
  destruct (String.eqb d c) eqn:Hd.
  - apply String.eqb_eq in Hd as ->. by intros [= <-].
  - destruct (index_of c cols) as [j|]; [|done]. simpl. intros [= <-]. by apply IH.
Qed.




Lemma rel_t_integer_cells : integer_cells rel_t.
Proof.
  unfold integer_cells, rel_t, df_t; cbn [rows df_values].
  repeat (first [apply Forall_nil_2 | apply Forall_cons_2]); unfold int64; lia.
Qed.





(** ** Table names that need quoting *)

(** C8 (the code at the failing inputs). On a table whose name holds a space
    or a double quote, [column_names] and [map_into] work: they send the
    sanitized name. [map] does not: it puts the name into its statement as it
    is (database.py:231), and the engine rejects the text. A name that holds
    the statement separator stops [map_into] as well: its statements go
    through [query], which counts the separator inside the quoted name. *)
Theorem map_sends_raw_table_name :
  outcome (column_names "my table") world_space = Ok [VText "id"; VText "val"] ∧
  outcome (map_into f_id_val "my table" "total" false) world_space = Ok tt ∧
  map f_id_val "my table" ["id"; "val"] "total" false world_space =
    (Raise (OperationalError "syntax error"),
     logged world_space [EvExecute "SELECT * FROM my table"]) ∧
  outcome (column_names name_quote) world_quote = Ok [VText "id"; VText "val"] ∧
  outcome (map_into f_id_val name_quote "total" false) world_quote = Ok tt ∧
  map f_id_val name_quote ["id"; "val"] "total" false world_quote =
    (Raise (OperationalError "syntax error"),
     logged world_quote [EvExecute ("SELECT * FROM " +:+ name_quote)]) ∧
  outcome (column_names "a;b") world_sep = Ok [VText "id"; VText "val"] ∧
  outcome (map_into f_id_val "a;b" "total" false) world_sep =
    Raise (ValueError msg_single_statement) ∧
  outcome (map f_id_val "a;b" ["id"; "val"] "total" false) world_sep =
    Raise (ValueError msg_single_statement).
Proof. vm_compute. repeat split. Qed.

(** C10 (the code at the failing input). With a table [x] and a table whose
    name is [x] between double quotes, [map] on the latter succeeds, but it
    has fetched the rows of [x]: the statement it sent names [x]. The relation
    it replaces loses its column [b] and now holds the column of [x] and the
    output. *)
Theorem map_replaces_with_other_table :
  schema world_qx name_qx = ["b"] ∧
  outcome (map f_a name_qx ["a"] "out" false) world_qx = Ok tt ∧
  _conn (self (final (map f_a name_qx ["a"] "out" false) world_qx)) !! name_qx =
    Some {| columns := ["a"; "out"];
            rows := [[VInt 1; VInt 1]; [VInt 2; VInt 2]] |} ∧
  "b" ∉ schema (final (map f_a name_qx ["a"] "out" false) world_qx) name_qx.
Proof.
  split; [reflexivity|]. split; [reflexivity|]. split; [reflexivity|].
  compute_done.
Qed.

(** ** [map] on a table with a bare name *)

Lemma lex_word_chars s : ∀ acc,
  all_chars is_id_char s = true → lex_go (LWord acc) s = [TWord (acc +:+ s)].
Proof.
  induction s as [|c s IH]; intros acc.
  - intros _. by rewrite str_app_nil_r.
  - cbn [all_chars lex_go]. intros [Hc Hs]%andb_true_iff. rewrite Hc.
    rewrite IH by done. by rewrite str_app_assoc.
Qed.

Lemma start_id_start c : is_id_start c = true → start c = ([], LWord (str1 c)).
Proof.
  intros Hc. destruct c as [b0 b1 b2 b3 b4 b5 b6 b7].
  destruct b0, b1, b2, b3, b4, b5, b6, b7;
    first [ discriminate Hc | reflexivity ].
Qed.

Lemma lex_head_map_fetch X :
  lex_go LStart ("SELECT * FROM " +:+ X) =
  TWord "SELECT" :: TStar :: TWord "FROM" :: lex_go LStart X.
Proof. vm_compute. reflexivity. Qed.

Lemma parse_map_fetch table :
  bare_identifier table = true →
  parse (lex (sql_map_fetch table)) = Some (SelectAll table).
Proof.
  unfold bare_identifier. intros [Hw Hkw]%andb_true_iff.
  destruct table as [|c s]; [done|]. apply andb_true_iff in Hw as [Hc Hs].
  unfold lex, sql_map_fetch. rewrite lex_head_map_fetch.
  cbn [lex_go]. rewrite (start_id_start _ Hc). cbn [app].
  rewrite lex_word_chars by done. change (str1 c +:+ s) with (String c s).
  unfold parse. cbn [skip_separators].
  change (is_kw "select" "SELECT") with true. cbv iota.
  unfold parse_from. change (is_kw "from" "FROM") with true. cbn [andb at_end].
  unfold ident_of. apply negb_true_iff in Hkw. by rewrite Hkw.
Qed.

Lemma id_char_no_sep c : is_id_char c = true → Ascii.eqb c semicolon = false.
Proof.
  intros H. destruct (Ascii.eqb c semicolon) eqn:Hc; [|done].
  apply Ascii.eqb_eq in Hc as ->. vm_compute in H. discriminate H.
Qed.

Lemma bare_identifier_no_sep table :
  bare_identifier table = true → PyStr.contains semicolon table = false.
Proof.
  unfold bare_identifier. intros [Hw _]%andb_true_iff.
  destruct table as [|c s]; [done|]. apply andb_true_iff in Hw as [Hc Hs].
  cbn [PyStr.contains]. rewrite id_char_no_sep.
  - by apply (all_chars_no_sep is_id_char _ id_char_no_sep).
  - unfold is_id_char. by rewrite Hc.
Qed.

Lemma query_map_fetch table w r :
  bare_identifier table = true →
  _conn (self w) !! table = Some r →
  query (sql_map_fetch table) w =
  (Ok {| t_rows := rows r; t_columns := columns r |},
   logged w [EvExecute (sql_map_fetch table)]).
Proof.
  intros Hb Hr. rewrite query_one.
  - unfold Sqlite.execute. rewrite parse_map_fetch by done. simpl.
    by rewrite (resolve_exact _ _ _ Hr).
  - apply statements_no_sep. unfold sql_map_fetch.
    by rewrite contains_app, (bare_identifier_no_sep _ Hb).
Qed.

Lemma positions_ok (labels cols : list string) :
  Forall (fun a => a ∈ cols) labels →
  positions labels cols = Ok (col_pos cols <$> labels).
Proof.
  induction 1 as [|a labels Ha _ IH]; [reflexivity|]. simpl.
  unfold col_pos at 1. destruct (index_of_elem _ _ Ha) as [i ->].
  by rewrite IH.
Qed.

Lemma comprehension_invoke_pos func (argss : list (list value)) w :
  comprehension (fun row => invoke func row []) argss w =
  ((call_each_pos func argss).1,
   logged w ((fun args => EvCall args []) <$> (call_each_pos func argss).2)).
Proof.
  revert w. induction argss as [|args argss IH]; intros w.
  - simpl. unfold ret, logged. simpl. rewrite app_nil_r. by destruct w.
  - cbn [comprehension call_each_pos].
    unfold mbind at 1. unfold M_bind at 1. unfold bind at 1.
    unfold invoke at 1. unfold mbind at 1. unfold M_bind at 1. unfold bind at 1.
    unfold emit, lift. fold (logged w [EvCall args []]).
    destruct (call func args []) as [v|e]; [|reflexivity].
    unfold mbind at 1. unfold M_bind at 1. unfold bind at 1.
    rewrite IH. destruct (call_each_pos func argss) as [[vs|e] called]; simpl;
      by rewrite logged_logged.
Qed.

Lemma call_each_pos_ok func (argss : list (list value)) vals called :
  call_each_pos func argss = (Ok vals, called) →
  called = argss ∧ length vals = length argss.
Proof.
  revert vals called. induction argss as [|args argss IH]; intros vals called.
  - by intros [= <- <-].
  - simpl. destruct (call func args []); [|done].
    destruct (call_each_pos func argss) as [[vs|e] cd]; [|done].
    intros [= <- <-]. destruct (IH _ _ eq_refl) as [-> Hlen].
    split; [done|]. simpl. by rewrite Hlen.
Qed.

(** [map] in full, for a table with a bare name. *)
Lemma map_run func table cols output overwrite w r :
  bare_identifier table = true →
  _conn (self w) !! table = Some r →
  columns r ≠ [] → NoDup (columns r) →
  Forall (fun a => a ∈ columns r) cols →
  (output ∉ columns r ∨ overwrite = true) →
  map func table cols output overwrite w =
  match call_each_pos func ((fun row => named_cell (columns r) row <$> cols) <$> rows r) with
  | (Raise e, called) =>
      (Raise e, logged w (EvExecute (sql_map_fetch table) ::
                          ((fun args => EvCall args []) <$> called)))
  | (Ok vals, called) =>
      (Ok tt,
       {| self := {| _conn := <[table := with_column r output vals]> (_conn (self w));
                     _name := _name (self w);
                     _tables := registered table (_tables (self w)) |};
          files := files w;
          events := events w ++ EvExecute (sql_map_fetch table) ::
                    ((fun args => EvCall args []) <$> called) ++
                    [EvToSql table "replace"] |})
  end.
Proof.
  intros Hb Hr Hne Hnd Hin Hout.
  unfold map. fold (sql_map_fetch table).
  unfold mbind at 1. unfold M_bind at 1. unfold bind at 1.
  rewrite (query_map_fetch _ _ r) by done.
  unfold to_dataframe. cbn [t_columns t_rows df_columns].
  assert (bool_decide (output ∈ columns r) && Bool.eqb overwrite false = false) as ->.
  { destruct Hout as [Hout| ->]; [|by rewrite andb_false_r].
    by rewrite (bool_decide_false _ Hout). }
  unfold mbind at 1. unfold M_bind at 1. unfold bind at 1.
  unfold lift at 1. unfold getitem. cbn [df_columns df_values].
  rewrite positions_ok by done. cbn [df_values].
  unfold mbind at 1. unfold M_bind at 1. unfold bind at 1.
  rewrite comprehension_invoke_pos.
  rewrite (list_fmap_ext (fun row => cell row <$> (col_pos (columns r) <$> cols))
             (fun row => named_cell (columns r) row <$> cols) (rows r))
    by (intros _ row _; by apply cells_named).
  destruct (call_each_pos func _) as [[vals|e] called] eqn:Hcalls; cbn [fst snd].
  2:{ by rewrite logged_logged. }
  apply call_each_pos_ok in Hcalls as [-> Hlen]. rewrite length_fmap in Hlen.
  unfold mbind at 1. unfold M_bind at 1. unfold bind at 1.
  unfold lift at 1.
  rewrite setitem_with_column by done.
  rewrite add_table_replace.
  - unfold logged. cbn [self files events _conn _name _tables df_columns df_values].
    do 2 f_equal.
    + by destruct (with_column r output vals).
    + rewrite <- !app_assoc. reflexivity.
  - cbn [df_columns]. by apply with_column_columns_ne.
  - cbn [df_columns]. by apply with_column_NoDup.
Qed.

(** ** The columns a new column leaves alone *)

Lemma index_of_app_l c (cols more : list string) i :
  index_of c cols = Some i → index_of c (cols ++ more) = Some i.
Proof.
  revert i. induction cols as [|d cols IH]; intros i; [done|]. simpl.
  destruct (String.eqb d c); [done|].
  destruct (index_of c cols) as [j|]; [|done]. simpl. intros [= <-].
  by rewrite (IH j).
Qed.

Lemma with_column_frame r output vals :
  well_shaped r → length vals = length (rows r) →
  same_other_columns output r (with_column r output vals).
Proof.
  intros (Hne & Hnd & Hshape) Hlen. unfold same_other_columns, with_column.
  destruct (index_of output (columns r)) as [i|] eqn:Hout; cbn [columns rows].
  - split; [done|]. split; [by rewrite length_zip_with_l_eq|].
    intros c k row row' Hc Hin Hrow Hrow'.
    apply lookup_zip_with_Some in Hrow' as (row0 & v & -> & Hrow0 & _).
    assert (row0 = row) as -> by congruence.
    unfold named_cell. destruct (index_of_elem _ _ Hin) as [j Hj]. rewrite Hj.
    unfold cell. rewrite list_lookup_insert_ne; [done|].
    intros ->. apply index_of_lookup in Hout, Hj. congruence.
  - split.
    { rewrite filter_app, filter_cons_False, filter_nil, app_nil_r; [done|].
      intros H. by apply H. }
    split; [by rewrite length_zip_with_l_eq|].
    intros c k row row' Hc Hin Hrow Hrow'.
    apply lookup_zip_with_Some in Hrow' as (row0 & v & -> & Hrow0 & _).
    assert (row0 = row) as -> by congruence.
    unfold named_cell. destruct (index_of_elem _ _ Hin) as [j Hj].
    rewrite (index_of_app_l _ _ _ _ Hj), Hj.
    unfold cell. rewrite lookup_app_l; [done|].
    rewrite Forall_forall in Hshape.
    rewrite (Hshape row) by (by eapply list_elem_of_lookup_2).
    apply index_of_lookup in Hj. by eapply lookup_lt_Some.
Qed.

Lemma index_of_Some_elem c (cols : list string) i :
  index_of c cols = Some i → c ∈ cols.
Proof. intros H%index_of_lookup. by eapply list_elem_of_lookup_2. Qed.

Lemma positions_Ok_inv (labels cols : list string) ixs :
  positions labels cols = Ok ixs → Forall (fun a => a ∈ cols) labels.
Proof.
  revert ixs. induction labels as [|a labels IH]; intros ixs; [constructor|].
  simpl. destruct (index_of a cols) as [i|] eqn:Hi; [|done].
  destruct (positions labels cols) as [js|] eqn:Hp; [|done]. intros _.
  constructor; [by eapply index_of_Some_elem|by eapply IH].
Qed.

(** A successful [map] on a bare-named table got past the guard and found
    every column it was asked for. *)
Lemma map_ok_inv func table cols output overwrite w r :
  bare_identifier table = true →
  _conn (self w) !! table = Some r →
  outcome (map func table cols output overwrite) w = Ok tt →
  Forall (fun a => a ∈ columns r) cols ∧ (output ∉ columns r ∨ overwrite = true).
Proof.
  intros Hb Hr. unfold outcome, map. fold (sql_map_fetch table).
  unfold mbind at 1. unfold M_bind at 1. unfold bind at 1.
  rewrite (query_map_fetch _ _ r) by done.
  unfold to_dataframe. cbn [t_columns t_rows df_columns].
  destruct (bool_decide (output ∈ columns r) && Bool.eqb overwrite false) eqn:Hguard;
    [done|].
  unfold mbind at 1. unfold M_bind at 1. unfold bind at 1.
  unfold lift at 1. unfold getitem. cbn [df_columns df_values].
  destruct (positions cols (columns r)) as [ixs|e] eqn:Hp; [|done].
  intros _. split; [by eapply positions_Ok_inv|].
  apply andb_false_iff in Hguard as [Hg|Hg].
  - left. by apply bool_decide_eq_false in Hg.
  - right. by destruct overwrite.
Qed.

(** ** Further properties of the row mapping *)

(** When [map] succeeds on a well-shaped table with a bare name that holds
    64-bit integers in at least one row, the relation is replaced by one that
    has the output column and, besides it, the columns it had, in the same
    order and with the same cells, whether or not they were among the columns
    mapped over; every other relation is left alone. *)
Theorem map_keeps_other_columns (func : function) (table : string)
  (cols : list string) (output : string) (overwrite : bool) (w : World) (r : relation) :
  bare_identifier table = true →
  _conn (self w) !! table = Some r →
  well_shaped r →
  integer_cells r →
  rows r ≠ [] →
  outcome (map func table cols output overwrite) w = Ok tt →
  let w' := final (map func table cols output overwrite) w in
  (∃ r', _conn (self w') !! table = Some r' ∧
         same_other_columns output r r' ∧ output ∈ columns r') ∧
  (∀ other, other ≠ table → _conn (self w') !! other = _conn (self w) !! other).
Proof.
  intros Hb Hr Hshape _ _ Hok w'.
  destruct (map_ok_inv _ _ _ _ _ _ _ Hb Hr Hok) as [Hin Hout].
  destruct Hshape as (Hne & Hnd & Hrows).
  unfold w', final. unfold outcome in Hok.
  rewrite (map_run _ _ _ _ _ _ r) in Hok |- * by done.
  destruct (call_each_pos func _) as [[vals|e] called] eqn:Hcalls; [|done].
  apply call_each_pos_ok in Hcalls as [_ Hlen]. rewrite length_fmap in Hlen.
  cbn [snd self _conn]. split.
  - exists (with_column r output vals). split; [apply lookup_insert_eq|].
    split; [by apply with_column_frame|].
    unfold with_column. destruct (index_of output (columns r)) eqn:Hix; cbn [columns].
    + by eapply index_of_Some_elem.
    + apply elem_of_app. right. by apply list_elem_of_singleton.
  - intros other Hother. by apply lookup_insert_ne.
Qed.

(** On the example table, for [f(id, val)] and the output [total]. *)
Lemma map_keeps_other_columns_witness :
  let w' := final (map f_id_val "t" ["id"; "val"] "total" false) world_t in
  (∃ r', _conn (self w') !! "t" = Some r' ∧
         same_other_columns "total" rel_t r' ∧ "total" ∈ columns r') ∧
  (∀ other, other ≠ "t" → _conn (self w') !! other = _conn (self world_t) !! other).
Proof.
  apply (map_keeps_other_columns f_id_val "t" ["id"; "val"] "total" false world_t rel_t).
  - reflexivity.
  - reflexivity.
  - split; [discriminate|]. split; compute_done.
  - apply rel_t_integer_cells.
  - discriminate.
  - reflexivity.
Defined.

(** When [map_into] succeeds on a well-shaped table of the catalog that holds
    64-bit integers in at least one row (its name no column of the pragma and
    without the statement separator; the function well formed, with at least
    one positional parameter, each naming a column; [output] no column, or
    [overwrite] set), the relation is replaced by one that has the output
    column and, besides it, every column it had, the ones the function does
    not name included, in the same order and with the same cells; every other
    relation is left alone. *)
Theorem map_into_keeps_other_columns (func : function) (table output : string)
  (overwrite : bool) (w : World) (r : relation) :
  pragma_column table = false →
  PyStr.contains semicolon table = false →
  _conn (self w) !! table = Some r →
  well_shaped r →
  integer_cells r →
  rows r ≠ [] →
  well_formed func →
  arg_names func ≠ [] →
  Forall (fun a => a ∈ columns r) (arg_names func) →
  (output ∉ columns r ∨ overwrite = true) →
  outcome (map_into func table output overwrite) w = Ok tt →
  let w' := final (map_into func table output overwrite) w in
  (∃ r', _conn (self w') !! table = Some r' ∧
         same_other_columns output r r' ∧ output ∈ columns r') ∧
  (∀ other, other ≠ table → _conn (self w') !! other = _conn (self w) !! other).
Proof.
  intros Hp Htable Hr Hshape _ _ Hwf Hargs Hin Hout Hok w'.
  destruct Hshape as (Hne & Hnd & Hrows).
  unfold w', final. unfold outcome in Hok.
  rewrite (map_into_run _ _ _ _ _ r) in Hok |- * by done. cbv zeta in Hok |- *.
  destruct (call_each func _) as [[vals|e] called] eqn:Hcalls; [|done].
  apply call_each_ok in Hcalls as [_ Hlen]. rewrite length_fmap in Hlen.
  cbn [snd self _conn]. split.
  - exists (with_column r output vals). split; [apply lookup_insert_eq|].
    split; [by apply with_column_frame|].
    unfold with_column. destruct (index_of output (columns r)) eqn:Hix; cbn [columns].
    + by eapply index_of_Some_elem.
    + apply elem_of_app. right. by apply list_elem_of_singleton.
  - intros other Hother. by apply lookup_insert_ne.
Qed.

(** On the example table, for a function that names the column [id] only. *)
Lemma map_into_keeps_other_columns_witness :
  let w' := final (map_into f_id "t" "total" false) world_t in
  (∃ r', _conn (self w') !! "t" = Some r' ∧
         same_other_columns "total" rel_t r' ∧ "total" ∈ columns r') ∧
  (∀ other, other ≠ "t" → _conn (self w') !! other = _conn (self world_t) !! other).
Proof.
  apply (map_into_keeps_other_columns f_id "t" "total" false world_t rel_t).
  - reflexivity.
  - reflexivity.
  - reflexivity.
  - split; [discriminate|]. split; compute_done.
  - apply rel_t_integer_cells.
  - discriminate.
  - split; compute_done.
  - discriminate.
  - compute_done.
  - left. compute_done.
  - reflexivity.
Defined.

(** ** What a call can change *)

Lemma to_sql_stores df name cat if_exists cat' :
  to_sql df name cat if_exists = Ok cat' → ∃ rel, cat' = <[name := rel]> cat.
Proof.
  unfold to_sql, create_table, insert_rows.
  repeat first
    [ progress intros
    | match goal with
      | H : Ok _ = Ok _ |- _ => injection H as <-
      | H : Raise _ = Ok _ |- _ => discriminate H
      | H : context [if ?b then _ else _] |- _ => destruct b eqn:?
      | H : context [match ?x with _ => _ end] |- _ => destruct x eqn:?
      end ];
    try (eexists; reflexivity).
  eexists. by rewrite insert_delete_eq.
Qed.

Lemma parse_dataframe_effect df name if_exists w res w' :
  _parse_dataframe df name if_exists w = (res, w') →
  files w' = files w ∧ _name (self w') = _name (self w) ∧
  _tables (self w') = _tables (self w) ∧
  match res with
  | Ok _ => ∃ rel, _conn (self w') = <[name := rel]> (_conn (self w))
  | Raise _ => self w' = self w
  end.
Proof.
  unfold _parse_dataframe, mbind, M_bind, bind, emit, get_self, lift, put_self. simpl.
  destruct (to_sql df name (_conn (self w)) if_exists) as [cat|e] eqn:Hsql;
    intros [= <- <-]; simpl.
  - repeat split; try done. by eapply to_sql_stores.
  - done.
Qed.

Lemma parse_file_effect file name if_exists w res w' :
  _parse_file file name if_exists w = (res, w') →
  files w' = files w ∧ _name (self w') = _name (self w) ∧
  _tables (self w') = _tables (self w) ∧
  match res with
  | Ok _ => ∃ rel, _conn (self w') = <[name := rel]> (_conn (self w))
  | Raise _ => self w' = self w
  end.
Proof.
  unfold _parse_file.
  destruct (files w !! file) as [[df|e]|]; [| |by intros [= <- <-]].
  - case_bool_decide; [|by intros [= <- <-]].
    unfold mbind, M_bind, bind, lift. apply parse_dataframe_effect.
  - case_bool_decide; by intros [= <- <-].
Qed.

(** [add_table] either leaves the object alone or stores one relation under
    [name] and registers the name; it stores only when it returns. *)
Lemma add_table_effect table name if_exists w res w' :
  add_table table name if_exists w = (res, w') →
  files w' = files w ∧
  match res with
  | Ok _ => ∃ rel, self w' = store name rel (self w)
  | Raise _ => self w' = self w
  end.
Proof.
  unfold add_table.
  destruct (negb (bool_decide (if_exists ∈ ["fail"; "replace"; "append"])));
    [by intros [= <- <-]|].
  unfold mbind at 1. unfold M_bind at 1. unfold bind at 1. unfold get_self at 1.
  destruct (bool_decide (name ∈ _tables (self w)) && String.eqb if_exists "fail");
    [by intros [= <- <-]|].
  unfold mbind at 1. unfold M_bind at 1. unfold bind at 1.
  assert (∀ (r1 : pyresult unit) w1,
    files w1 = files w ∧ _name (self w1) = _name (self w) ∧
    _tables (self w1) = _tables (self w) ∧
    match r1 with
    | Ok _ => ∃ rel, _conn (self w1) = <[name := rel]> (_conn (self w))
    | Raise _ => self w1 = self w
    end →
    match r1 with
    | Ok a =>
        (d ← get_self;
         if bool_decide (name ∈ _tables d) then ret ()
         else put_self {| _conn := _conn d; _name := _name d;
                          _tables := _tables d ++ [name] |}) w1
    | Raise e => (Raise e, w1)
    end = (res, w') →
    files w' = files w ∧
    match res with
    | Ok _ => ∃ rel, self w' = store name rel (self w)
    | Raise _ => self w' = self w
    end) as Hfinish.
  { intros [[]|e] w1; [|by intros (? & ? & ? & ?) [= <- <-]].
    intros (Hf & Hn & Ht & rel & Hc).
    unfold mbind, M_bind, bind, get_self, ret, put_self, store, registered.
    rewrite Ht.
    destruct (bool_decide (name ∈ _tables (self w))); intros [= <- <-];
      cbn [self files].
    - split; [done|]. exists rel. destruct (self w1) as [c n t]. simpl in *. by subst.
    - split; [done|]. exists rel. by rewrite Hc, Hn. }
  destruct table as [file|t|df|].
  - destruct (_parse_file file name if_exists w) as [r1 w1] eqn:Hstep.
    apply Hfinish. by eapply parse_file_effect.
  - destruct (_parse_faro_table t name if_exists w) as [r1 w1] eqn:Hstep.
    apply Hfinish. by eapply parse_dataframe_effect.
  - destruct (_parse_dataframe df name if_exists w) as [r1 w1] eqn:Hstep.
    apply Hfinish. by eapply parse_dataframe_effect.
  - by intros [= <- <-].
Qed.




Lemma query_effect sql w res w' :
  query sql w = (res, w') → self w' = self w ∧ files w' = files w.
Proof.
  destruct (decide (1 < length (statements sql))%nat).
  - rewrite query_many by done. by intros [= <- <-].
  - rewrite query_one by lia. by intros [= <- <-].
Qed.

(** [map] either leaves the object alone or stores one relation under [table]
    and registers the name; it stores only when it returns. *)
Lemma map_effect func table cols output overwrite w res w' :
  map func table cols output overwrite w = (res, w') →
  files w' = files w ∧
  match res with
  | Ok _ => ∃ rel, self w' = store table rel (self w)
  | Raise _ => self w' = self w
  end.
Proof.
  unfold map.
  unfold mbind at 1. unfold M_bind at 1. unfold bind at 1.
  destruct (query ("SELECT * FROM " +:+ table) w) as [[t|e] w1] eqn:Hq;
    apply query_effect in Hq as [Hs1 Hf1]; [|by intros [= <- <-]].
  destruct (bool_decide (output ∈ df_columns (to_dataframe t)) && Bool.eqb overwrite false);
    [by intros [= <- <-]|].
  unfold mbind at 1. unfold M_bind at 1. unfold bind at 1. unfold lift at 1.
  destruct (getitem (to_dataframe t) cols) as [sub|e]; [|by intros [= <- <-]].
  unfold mbind at 1. unfold M_bind at 1. unfold bind at 1.
  rewrite comprehension_invoke_pos.
  destruct (call_each_pos func (df_values sub)) as [[vals|e] called]; cbn [fst snd];
    [|by intros [= <- <-]].
  unfold mbind at 1. unfold M_bind at 1. unfold bind at 1. unfold lift at 1.
  destruct (setitem (to_dataframe t) output vals) as [df|e]; [|by intros [= <- <-]].
  intros [Hf Hs]%add_table_effect. cbn [logged self files] in Hf, Hs.
  rewrite Hs1 in Hs. by rewrite Hf1 in Hf.
Qed.

(** So does [map_into]. *)
Lemma map_into_effect func table output overwrite w res w' :
  map_into func table output overwrite w = (res, w') →
  files w' = files w ∧
  match res with
  | Ok _ => ∃ rel, self w' = store table rel (self w)
  | Raise _ => self w' = self w
  end.
Proof.
  unfold map_into.
  unfold mbind at 1 2 3. unfold M_bind at 1 2 3. unfold bind at 1 2 3.
  rewrite column_names_eq, check_bound_eq.
  destruct (first_unbound (arg_names func) (introspected w table)); [by intros [= <- <-]|].
  destruct (query _ (logged w [EvExecute (sql_table_info table)])) as [[t|e] w1] eqn:Hq;
    apply query_effect in Hq as [Hs1 Hf1]; cbn [logged self files] in Hs1, Hf1;
    [|by intros [= <- <-]].
  destruct (bool_decide (VText output ∈ VText <$> introspected w table) && negb overwrite);
    [by intros [= <- <-]|].
  unfold mbind at 1. unfold M_bind at 1. unfold bind at 1.
  rewrite comprehension_invoke.
  destruct (call_each func (to_dict_records (to_dataframe t))) as [[vals|e] called];
    cbn [fst snd]; [|by intros [= <- <-]].
  unfold mbind at 1. unfold M_bind at 1. unfold bind at 1.
  destruct (query _ (logged w1 (EvCall [] <$> called))) as [[t2|e] w2] eqn:Hq2;
    apply query_effect in Hq2 as [Hs2 Hf2]; cbn [logged self files] in Hs2, Hf2;
    [|intros [= <- <-]; split; congruence].
  unfold mbind at 1. unfold M_bind at 1. unfold bind at 1. unfold lift at 1.
  destruct (setitem (to_dataframe t2) output vals) as [df|e];
    [|intros [= <- <-]; split; congruence].
  intros [Hf Hs]%add_table_effect.
  rewrite Hs2, Hs1 in Hs. by rewrite Hf2, Hf1 in Hf.
Qed.

Lemma store_NoDup name rel d : NoDup (_tables d) → NoDup (_tables (store name rel d)).
Proof.
  intros Hnd. unfold store, registered. simpl. case_bool_decide; [done|].
  apply NoDup_app. split; [done|]. split; [|apply NoDup_singleton].
  by intros x Hx ->%list_elem_of_singleton.
Qed.

Lemma elem_of_registered n name (tables : list string) :
  n ∈ registered name tables ↔ n = name ∨ n ∈ tables.
Proof.
  unfold registered. case_bool_decide.
  - split; [tauto|]. by intros [->|?].
  - rewrite elem_of_app, list_elem_of_singleton. tauto.
Qed.

(** Each call leaves the files and the display name alone, and either leaves
    the object alone or stores one relation under its target. *)
Lemma after_effect o w :
  files (after o w) = files w ∧
  (self (after o w) = self w ∨ ∃ rel, self (after o w) = store (target o) rel (self w)).
Proof.
  destruct o as [table name if_exists|table|func table cols output overwrite
                |func table output overwrite]; unfold after, target, final.
  - destruct (add_table table name if_exists w) as [[[]|e] w'] eqn:H;
      apply add_table_effect in H as [Hf Hs]; eauto.
  - rewrite column_names_eq. simpl. auto.
  - destruct (map func table cols output overwrite w) as [[[]|e] w'] eqn:H;
      apply map_effect in H as [Hf Hs]; eauto.
  - destruct (map_into func table output overwrite w) as [[[]|e] w'] eqn:H;
      apply map_into_effect in H as [Hf Hs]; eauto.
Qed.

(** ** The registry *)

(** [add_table] registers the name exactly when it returns: the registry is
    then the old one, with the name added at the end unless it was there
    already. When [add_table] raises, whatever the reason (the policy, the
    name, the file, its extension, the reader, the engine, the kind of
    source), the registry is the old one. The display name and the files are
    never touched, and a registry without duplicates stays so. *)
Theorem add_table_registry (table : source) (name if_exists : string) (w : World) :
  let w' := final (add_table table name if_exists) w in
  match outcome (add_table table name if_exists) w with
  | Ok _ => _tables (self w') = registered name (_tables (self w)) ∧
            name ∈ _tables (self w') ∧ is_Some (_conn (self w') !! name)
  | Raise _ => _tables (self w') = _tables (self w)
  end ∧
  _name (self w') = _name (self w) ∧ files w' = files w ∧
  (NoDup (_tables (self w)) → NoDup (_tables (self w'))).
Proof.
  unfold final, outcome.
  destruct (add_table table name if_exists w) as [[[]|e] w'] eqn:H;
    apply add_table_effect in H as [Hf Hs]; cbn [fst snd].
  - destruct Hs as [rel ->]. repeat split; try done.
    + apply elem_of_registered. by left.
    + cbn [store _conn]. rewrite lookup_insert_eq. by eexists.
    + apply store_NoDup.
  - by rewrite Hs.
Qed.

Lemma session_snoc ops o w : session (ops ++ [o]) w = after o (session ops w).
Proof. unfold session. by rewrite foldl_app. Qed.

(** From a new database on, whatever is called and whether the calls return
    or raise: the registry holds no name twice, every registered name was the
    target of one of the calls, and the display name and the files are as at
    the start. *)
Theorem session_invariants (name : string) (fs : gmap string (pyresult DataFrame))
  (ops : list op) :
  let w := session ops {| self := new name; files := fs; events := [] |} in
  NoDup (_tables (self w)) ∧
  (∀ n, n ∈ _tables (self w) → n ∈ target <$> ops) ∧
  _name (self w) = name ∧ files w = fs.
Proof.
  induction ops as [|o ops IH] using rev_ind; cbv zeta.
  - simpl. repeat split; try done. constructor.
  - rewrite session_snoc.
    set (w := session ops {| self := new name; files := fs; events := [] |}) in *.
    destruct IH as (Hnd & Hfrom & Hname & Hfiles).
    destruct (after_effect o w) as [Hf [Hs|[rel Hs]]]; rewrite Hs, Hf.
    + repeat split; try done. intros n Hn. rewrite fmap_app, elem_of_app. auto.
    + repeat split; try done.
      * by apply store_NoDup.
      * intros n [->|Hn]%elem_of_registered; rewrite fmap_app, elem_of_app.
        -- right. by apply list_elem_of_singleton.
        -- auto.
Qed.

(** ** The extension of a path *)

Lemma str_length_app s t :
  String.length (s +:+ t) = (String.length s + String.length t)%nat.
Proof. induction s as [|c s IH]; [done|]. rewrite str_app_cons. simpl. by rewrite IH. Qed.

Lemma rfind_go_app c s : ∀ t i best,
  OsPath.rfind_go c (s +:+ t) i best =
  OsPath.rfind_go c t (i + Z.of_nat (String.length s)) (OsPath.rfind_go c s i best).
Proof.
  induction s as [|d s IH]; intros t i best.
  - change (EmptyString +:+ t) with t. simpl. f_equal. lia.
  - rewrite str_app_cons. cbn [OsPath.rfind_go String.length]. rewrite IH.
    f_equal. lia.
Qed.

Lemma rfind_go_absent c s : ∀ i best,
  PyStr.contains c s = false → OsPath.rfind_go c s i best = best.
Proof.
  induction s as [|d s IH]; intros i best; [done|].
  cbn [PyStr.contains OsPath.rfind_go]. intros [Hd Hs]%orb_false_iff.
  rewrite Hd. by apply IH.
Qed.

Lemma rfind_last c s t :
  PyStr.contains c t = false →
  OsPath.rfind c (s +:+ String c t) = Z.of_nat (String.length s).
Proof.
  intros Ht. unfold OsPath.rfind. rewrite rfind_go_app.
  cbn [OsPath.rfind_go]. rewrite Ascii.eqb_refl.
  rewrite rfind_go_absent by done. lia.
Qed.

Lemma rfind_none c s : PyStr.contains c s = false → OsPath.rfind c s = (-1)%Z.
Proof. intros H. unfold OsPath.rfind. by apply rfind_go_absent. Qed.

Lemma rfind_sep dir rest :
  dir_prefix dir → PyStr.contains "/" rest = false →
  (OsPath.rfind "/" (dir +:+ rest) + 1)%Z = Z.of_nat (String.length dir).
Proof.
  intros [->|[d ->]] Hrest.
  - change (EmptyString +:+ rest) with rest. by rewrite rfind_none.
  - rewrite str_app_assoc. change ("/" +:+ rest) with (String "/" rest).
    rewrite rfind_last by done. rewrite str_length_app. simpl. lia.
Qed.

Lemma substring_skip a : ∀ n x,
  String.substring (String.length a) n (a +:+ x) = String.substring 0 n x.
Proof. induction a as [|c a IH]; intros n x; [done|]. rewrite str_app_cons. apply IH. Qed.

Lemma substring_take b : ∀ x,
  String.substring 0 (String.length b) (b +:+ x) = b.
Proof.
  induction b as [|c b IH]; intros x.
  - simpl. by destruct (EmptyString +:+ x).
  - rewrite str_app_cons. simpl. by rewrite IH.
Qed.

(** The extension of [dir/base.e]: the last dot and what follows it, unless
    the file name before that dot is empty or made of dots. *)
Lemma splitext_ext_shape dir base e :
  dir_prefix dir →
  PyStr.contains "/" base = false →
  PyStr.contains "/" e = false → PyStr.contains "." e = false →
  OsPath.splitext_ext (dir +:+ base +:+ String "." e) =
  if OsPath.all_dots base then EmptyString else String "." e.
Proof.
  intros Hdir Hbase He1 He2. unfold OsPath.splitext_ext.
  assert (OsPath.rfind "." (dir +:+ base +:+ String "." e) =
          Z.of_nat (String.length dir + String.length base)) as Hdot.
  { rewrite <- str_app_assoc, rfind_last by done. by rewrite str_length_app. }
  assert ((OsPath.rfind "/" (dir +:+ base +:+ String "." e) + 1)%Z =
          Z.of_nat (String.length dir)) as Hsep.
  { apply rfind_sep; [done|]. rewrite contains_app. cbn [PyStr.contains].
    by rewrite Hbase, He1. }
  rewrite Hdot, Hsep.
  assert ((OsPath.rfind "/" (dir +:+ base +:+ String "." e) <?
           Z.of_nat (String.length dir + String.length base))%Z = true) as ->
    by (apply Z.ltb_lt; lia).
  unfold OsPath.slice.
  replace (Z.to_nat (Z.of_nat (String.length dir))) with (String.length dir) by lia.
  replace (Z.to_nat (Z.of_nat (String.length dir + String.length base) -
                     Z.of_nat (String.length dir))) with (String.length base) by lia.
  rewrite substring_skip, substring_take. cbn [andb].
  destruct (OsPath.all_dots base); [done|]. cbn [negb].
  replace (Z.to_nat (Z.of_nat (String.length dir + String.length base)))
    with (String.length (dir +:+ base)) by (rewrite str_length_app; lia).
  rewrite <- (str_app_assoc dir base), substring_skip.
  replace (Z.to_nat (Z.of_nat (String.length ((dir +:+ base) +:+ String "." e)) -
                     Z.of_nat (String.length dir + String.length base)))
    with (String.length (String "." e))
    by (rewrite !str_length_app; cbn [String.length]; lia).
  rewrite <- (str_app_nil_r (String "." e)) at 2. apply substring_take.
Qed.

(** ** The kinds of source *)

Lemma add_table_guards_pass table name if_exists w :
  if_exists ∈ ["fail"; "replace"; "append"] →
  ¬ (name ∈ _tables (self w) ∧ if_exists = "fail") →
  add_table table name if_exists w =
  (_ ← match table with
       | SrcPath file => _parse_file file name if_exists
       | SrcTable t => _parse_faro_table t name if_exists
       | SrcDataFrame df => _parse_dataframe df name if_exists
       | SrcOther => raise (TypeError msg_table_type)
       end;
   d ← get_self;
   if bool_decide (name ∈ _tables d) then ret tt
   else put_self {| _conn := _conn d; _name := _name d; _tables := _tables d ++ [name] |}) w.
Proof.
  intros Hpol Hguard. unfold add_table.
  rewrite (bool_decide_true _ Hpol). cbn [negb].
  unfold mbind at 1. unfold M_bind at 1. unfold bind at 1. unfold get_self at 1.
  assert (bool_decide (name ∈ _tables (self w)) && String.eqb if_exists "fail" = false) as ->;
    [|done].
  apply andb_false_iff. destruct (String.eqb if_exists "fail") eqn:Heq; [|by right].
  apply String.eqb_eq in Heq. left. apply bool_decide_eq_false. tauto.
Qed.

(** A path is ingested by its extension, read off the file name as
    [os.path.splitext] does. For a path [dir/base.e], once the policy is
    valid and the name is not refused: a missing file raises the
    file-not-found error; a file whose extension has no reader, which
    includes a file name that is empty or only dots before its last dot and
    an extension in another letter case, raises the type error that names
    the extension, without being read; otherwise the frame the reader returns
    is ingested exactly as if it had been passed itself, and an exception of
    the reader reaches the caller. The errors leave the world as it was. A
    table container is ingested as its frame, and any other kind of source
    raises the type error for the source. *)
Theorem add_table_source_dispatch (dir base e name if_exists : string) (w : World) :
  dir_prefix dir →
  PyStr.contains "/" base = false →
  PyStr.contains "/" e = false → PyStr.contains "." e = false →
  if_exists ∈ ["fail"; "replace"; "append"] →
  ¬ (name ∈ _tables (self w) ∧ if_exists = "fail") →
  let file := dir +:+ base +:+ String "." e in
  let ext := if OsPath.all_dots base then EmptyString else String "." e in
  match files w !! file with
  | None =>
      add_table (SrcPath file) name if_exists w = (Raise (FileNotFoundError file), w)
  | Some content =>
      if bool_decide (ext ∈ supported) then
        match content with
        | Ok df =>
            add_table (SrcPath file) name if_exists w =
            add_table (SrcDataFrame df) name if_exists w
        | Raise err => add_table (SrcPath file) name if_exists w = (Raise err, w)
        end
      else
        add_table (SrcPath file) name if_exists w =
        (Raise (TypeError (msg_extension ext)), w)
  end ∧
  (∀ t, add_table (SrcTable t) name if_exists w =
        add_table (SrcDataFrame (to_dataframe t)) name if_exists w) ∧
  add_table SrcOther name if_exists w = (Raise (TypeError msg_table_type), w).
Proof.
  intros Hdir Hbase He1 He2 Hpol Hguard file ext.
  split; [|split].
  - assert (OsPath.splitext_ext file = ext) as Hext
      by (by apply splitext_ext_shape).
    destruct (files w !! file) as [content|] eqn:Hfile.
    + unfold supported. case_bool_decide as Hsup; [destruct content as [df|err]|].
      * rewrite !(add_table_guards_pass _ _ _ _ Hpol Hguard).
        unfold mbind, M_bind, bind, _parse_file, lift. rewrite Hfile, Hext.
        by rewrite (bool_decide_true _ Hsup).
      * rewrite (add_table_guards_pass _ _ _ _ Hpol Hguard).
        unfold mbind, M_bind, bind, _parse_file, lift. rewrite Hfile, Hext.
        by rewrite (bool_decide_true _ Hsup).
      * rewrite (add_table_guards_pass _ _ _ _ Hpol Hguard).
        unfold mbind, M_bind, bind, _parse_file, lift. rewrite Hfile, Hext.
        by rewrite (bool_decide_false _ Hsup).
    + rewrite (add_table_guards_pass _ _ _ _ Hpol Hguard).
      unfold mbind, M_bind, bind, _parse_file. by rewrite Hfile.
  - intros t. reflexivity.
  - rewrite (add_table_guards_pass _ _ _ _ Hpol Hguard). reflexivity.
Qed.

(** For the file [data/sales.csv] of a world that holds it. *)
Lemma add_table_source_dispatch_witness :
  add_table (SrcPath "data/sales.csv") "t" "fail" world_files =
  add_table (SrcDataFrame df_t) "t" "fail" world_files.
Proof.
  assert (dir_prefix "data/") as Hdir by (right; by exists "data").
  assert ("fail" ∈ ["fail"; "replace"; "append"]) as Hpol by compute_done.
  assert (¬ ("t" ∈ _tables (self world_files) ∧ "fail" = "fail")) as Hguard.
  { intros [Hin _]. by apply elem_of_nil in Hin. }
  destruct (add_table_source_dispatch "data/" "sales" "csv" "t" "fail" world_files
              Hdir eq_refl eq_refl eq_refl Hpol Hguard) as [Hfile _].
  exact Hfile.
Defined.

(** ** What the new column holds *)




Lemma with_column_columns r output vals :
  columns (with_column r output vals) =
  if bool_decide (output ∈ columns r) then columns r else columns r ++ [output].
Proof.
  unfold with_column. destruct (index_of output (columns r)) as [i|] eqn:Hout.
  - rewrite bool_decide_true; [done|]. by eapply index_of_Some_elem.
  - rewrite bool_decide_false; [done|].
    intros Hin. destruct (index_of_elem _ _ Hin) as [j Hj]. congruence.
Qed.


(** What a successful [map] on a bare-named table has done. *)
Lemma map_ok_relation func table cols output overwrite w r :
  bare_identifier table = true →
  _conn (self w) !! table = Some r →
  columns r ≠ [] → NoDup (columns r) →
  outcome (map func table cols output overwrite) w = Ok tt →
  ∃ vals,
    call_each_pos func ((fun row => named_cell (columns r) row <$> cols) <$> rows r) =
      (Ok vals, (fun row => named_cell (columns r) row <$> cols) <$> rows r) ∧
    length vals = length (rows r) ∧
    self (final (map func table cols output overwrite) w) =
      store table (with_column r output vals) (self w).
Proof.
  intros Hb Hr Hne Hnd Hok.
  destruct (map_ok_inv _ _ _ _ _ _ _ Hb Hr Hok) as [Hin Hout].
  unfold final. unfold outcome in Hok.
  rewrite (map_run _ _ _ _ _ _ r) in Hok |- * by done.
  destruct (call_each_pos func _) as [[vals|e] called] eqn:Hcalls; [|done].
  destruct (call_each_pos_ok _ _ _ _ Hcalls) as [-> Hlen]. rewrite length_fmap in Hlen.
  exists vals. by repeat split.
Qed.

(** What a successful [map_into] has done. *)
Lemma map_into_ok_relation func table output overwrite w r :
  pragma_column table = false →
  _conn (self w) !! table = Some r →
  NoDup (columns r) →
  well_formed func →
  arg_names func ≠ [] →
  Forall (fun a => a ∈ columns r) (arg_names func) →
  PyStr.contains semicolon table = false →
  (output ∉ columns r ∨ overwrite = true) →
  outcome (map_into func table output overwrite) w = Ok tt →
  ∃ vals,
    call_each func (kwargs_of (columns r) (arg_names func) <$> rows r) =
      (Ok vals, kwargs_of (columns r) (arg_names func) <$> rows r) ∧
    length vals = length (rows r) ∧
    self (final (map_into func table output overwrite) w) =
      store table (with_column r output vals) (self w).
Proof.
  intros Hp Hr Hnd Hwf Hargs Hin Htable Hout Hok.
  unfold final. unfold outcome in Hok.
  rewrite (map_into_run _ _ _ _ _ r) in Hok |- * by done. cbv zeta in Hok |- *.
  destruct (call_each func _) as [[vals|e] called] eqn:Hcalls; [|done].
  destruct (call_each_ok _ _ _ _ Hcalls) as [-> Hlen]. rewrite length_fmap in Hlen.
  exists vals. by repeat split.
Qed.



(** ** Errors of the row mapping *)

Lemma positions_fail (labels cols : list string) :
  ¬ Forall (fun a => a ∈ cols) labels →
  ∃ c, positions labels cols = Raise (KeyError c) ∧ c ∈ labels ∧ c ∉ cols.
Proof.
  induction labels as [|a labels IH]; intros Hnot.
  - destruct Hnot. constructor.
  - simpl. destruct (index_of a cols) as [i|] eqn:Hi.
    + destruct IH as (c & Hc & Hin & Hnin).
      { intros Hall. apply Hnot. constructor; [by eapply index_of_Some_elem|done]. }
      exists c. rewrite Hc. split; [done|]. split; [by right|done].
    + exists a. split; [done|]. split; [by left|].
      intros Hin. destruct (index_of_elem _ _ Hin) as [j Hj]. congruence.
Qed.

(** When [map] on a table with a bare name is asked for a column the table
    does not have, and the overwrite guard lets the call pass, it raises a
    key error for such a column after its one read: the user function is not
    called and nothing is written. *)
Theorem map_missing_column (func : function) (table : string) (cols : list string)
  (output : string) (overwrite : bool) (w : World) (r : relation) :
  bare_identifier table = true →
  _conn (self w) !! table = Some r →
  (output ∉ columns r ∨ overwrite = true) →
  ¬ Forall (fun a => a ∈ columns r) cols →
  ∃ key, (key ∈ cols) ∧ (key ∉ columns r) ∧
    map func table cols output overwrite w =
    (Raise (KeyError key), logged w [EvExecute (sql_map_fetch table)]).
Proof.
  intros Hb Hr Hout Hnot.
  destruct (positions_fail _ _ Hnot) as (key & Hpos & Hin & Hnin).
  exists key. split; [done|]. split; [done|].
  unfold map. fold (sql_map_fetch table).
  unfold mbind at 1. unfold M_bind at 1. unfold bind at 1.
  rewrite (query_map_fetch _ _ r) by done.
  unfold to_dataframe. cbn [t_columns t_rows df_columns].
  assert (bool_decide (output ∈ columns r) && Bool.eqb overwrite false = false) as ->.
  { destruct Hout as [Hout| ->]; [|by rewrite andb_false_r].
    by rewrite (bool_decide_false _ Hout). }
  unfold mbind at 1. unfold M_bind at 1. unfold bind at 1.
  unfold lift at 1. unfold getitem. cbn [df_columns df_values].
  by rewrite Hpos.
Qed.

(** On the example table, asked for the column [zzz]. *)
Lemma map_missing_column_witness :
  ∃ key, (key ∈ ["id"; "zzz"]) ∧ (key ∉ columns rel_t) ∧
    map f_id_val "t" ["id"; "zzz"] "total" false world_t =
    (Raise (KeyError key), logged world_t [EvExecute (sql_map_fetch "t")]).
Proof.
  apply (map_missing_column f_id_val "t" ["id"; "zzz"] "total" false world_t rel_t).
  - reflexivity.
  - reflexivity.
  - left. compute_done.
  - intros H. apply Forall_cons in H as [_ H]. apply Forall_inv in H.
    revert H. compute_done.
Defined.






(** ** Running a mapping again *)

Lemma store_lookup name rel d : _conn (store name rel d) !! name = Some rel.
Proof. unfold store. simpl. apply lookup_insert_eq. Qed.

Lemma with_column_has_output r output vals :
  output ∈ columns (with_column r output vals).
Proof.
  rewrite with_column_columns. case_bool_decide; [done|].
  apply elem_of_app. right. by apply list_elem_of_singleton.
Qed.

Lemma with_column_keeps r output vals c :
  c ∈ columns r → c ∈ columns (with_column r output vals).
Proof.
  intros Hc. rewrite with_column_columns. case_bool_decide; [done|].
  apply elem_of_app. by left.
Qed.

(** A [map_into] that returns has found its parameters among the column
    names it read: the table is not named after a column of the pragma. *)
Lemma map_into_ok_no_pragma_column func table output overwrite w :
  arg_names func ≠ [] →
  outcome (map_into func table output overwrite) w = Ok tt →
  pragma_column table = false.
Proof.
  intros Hargs Hok. destruct (pragma_column table) eqn:Hp; [|done].
  destruct (arg_names func) as [|a rest] eqn:Ha; [done|].
  unfold outcome in Hok. rewrite (map_into_unbound _ _ _ _ _ a) in Hok; [done|].
  rewrite (introspected_pragma_column _ _ Hp), Ha. reflexivity.
Qed.

(** A mapping that has succeeded cannot be run again as it is: with
    [overwrite] false the second call finds the output column and raises the
    column-exists error, after its reads and without calling the function or
    writing. This holds for [map] on a table with a bare name and for
    [map_into] on such a table when the parameters of the function name
    columns. *)
Theorem mapping_again_needs_overwrite (func : function) (table : string)
  (cols : list string) (output : string) (overwrite : bool) (w : World) (r : relation) :
  bare_identifier table = true →
  _conn (self w) !! table = Some r →
  well_shaped r →
  (outcome (map func table cols output overwrite) w = Ok tt →
   let w1 := final (map func table cols output overwrite) w in
   map func table cols output false w1 =
   (Raise (ValueError (msg_column_exists output)),
    logged w1 [EvExecute (sql_map_fetch table)])) ∧
  (well_formed func → arg_names func ≠ [] →
   Forall (fun a => a ∈ columns r) (arg_names func) →
   (output ∉ columns r ∨ overwrite = true) →
   outcome (map_into func table output overwrite) w = Ok tt →
   let w1 := final (map_into func table output overwrite) w in
   map_into func table output false w1 =
   (Raise (ValueError (msg_column_exists output)),
    logged w1 [EvExecute (sql_table_info table);
               EvExecute (sql_select_args (arg_names func) table)])).
Proof.
  intros Hb Hr (Hne & Hnd & Hrows). split.
  - intros Hok w1.
    destruct (map_ok_relation _ _ _ _ _ _ _ Hb Hr Hne Hnd Hok) as (vals & _ & _ & Hself).
    assert (_conn (self w1) !! table = Some (with_column r output vals)) as Hr1.
    { unfold w1. rewrite Hself. apply store_lookup. }
    eapply map_guard.
    + by apply query_map_fetch.
    + apply with_column_has_output.
  - intros Hwf Hargs Hin Hout Hok w1.
    pose proof (bare_identifier_no_sep _ Hb) as Hsep.
    pose proof (map_into_ok_no_pragma_column _ _ _ _ _ Hargs Hok) as Hp.
    destruct (map_into_ok_relation _ _ _ _ _ _ Hp Hr Hnd Hwf Hargs Hin Hsep Hout Hok)
      as (vals & _ & _ & Hself).
    assert (_conn (self w1) !! table = Some (with_column r output vals)) as Hr1.
    { unfold w1. rewrite Hself. apply store_lookup. }
    rewrite (map_into_fetched _ _ _ _ _ _ Hp Hr1); try done.
    + cbv zeta. rewrite bool_decide_true by apply with_column_has_output. done.
    + eapply Forall_impl; [exact Hin|]. intros a. apply with_column_keeps.
    + by apply arg_names_no_sep.
Qed.

(** On the example table, for [f(id, val)] and the output [total]. *)
Lemma mapping_again_needs_overwrite_witness :
  (let w1 := final (map f_id_val "t" ["id"; "val"] "total" false) world_t in
   map f_id_val "t" ["id"; "val"] "total" false w1 =
   (Raise (ValueError (msg_column_exists "total")),
    logged w1 [EvExecute (sql_map_fetch "t")])) ∧
  (let w1 := final (map_into f_id_val "t" "total" false) world_t in
   map_into f_id_val "t" "total" false w1 =
   (Raise (ValueError (msg_column_exists "total")),
    logged w1 [EvExecute (sql_table_info "t");
               EvExecute (sql_select_args (arg_names f_id_val) "t")])).
Proof.
  destruct (mapping_again_needs_overwrite f_id_val "t" ["id"; "val"] "total" false
              world_t rel_t) as [Hmap Hinto].
  - reflexivity.
  - reflexivity.
  - split; [discriminate|]. split; compute_done.
  - split.
    + by apply Hmap.
    + apply Hinto.
      * split; compute_done.
      * discriminate.
      * compute_done.
      * left. compute_done.
      * reflexivity.
Defined.

(** ** The binding check and the overwrite guard of [map_into] *)




